(** * Crossword CSP solver (Projects3/crossword/temp.py)

    A shallow embedding of [CrosswordCreator]: node consistency, AC-3,
    the global consistency check, the backtracking search and
    [letter_grid], followed by the properties of the solver stated in the
    specification and by further properties of the code.

    Python sets are [gset]s, iterated in the order of [elements]; dicts
    are [gmap]s, iterated in the order of [map_to_list].  The solver object
    is an explicit state threaded through every method; assignments are
    dict objects in an object store, passed by reference; exceptions are
    results of the monad and leave the state as it was when they were
    raised.  The [while] loop of [ac3] and the recursion of [backtrack] run
    on fuel, computed from their arguments and proved sufficient
    ([ac3_never_out_of_fuel], [backtrack_never_out_of_fuel]).  The recursion
    limit of the interpreter is not modelled. *)

From stdpp Require Import gmap strings list fin_maps sorting.

#[local] Set Warnings "-clear-no-such-hyp".

(** ** Data model *)

(** Modelled from the spec: the direction of a slot ([Variable.ACROSS],
    [Variable.DOWN] of the missing [crossword] module). *)
Inductive Direction := ACROSS | DOWN.

(** Modelled from the spec: a variable is a slot of the grid, with its
    start row, start column, direction and length (class [Variable] of the
    missing [crossword] module; the solver reads only [length]).  Two
    variables of one puzzle never share row, column and direction, so the
    equality of the record is the identity of the spec. *)
Record Var := MkVar {
  var_i : nat;
  var_j : nat;
  var_direction : Direction;
  var_length : nat
}.

Global Instance Direction_eq_dec : EqDecision Direction.
Proof. solve_decision. Defined.

Global Instance Var_eq_dec : EqDecision Var.
Proof. solve_decision. Defined.

Global Instance Direction_countable : Countable Direction.
Proof.
  refine (inj_countable' (λ d, match d with ACROSS => false | DOWN => true end)
                         (λ b : bool, if b then DOWN else ACROSS) _).
  by intros [].
Defined.

Global Instance Var_countable : Countable Var.
Proof.
  refine (inj_countable'
            (λ v, (var_i v, var_j v, var_direction v, var_length v))
            (λ '(a, b, c, d), MkVar a b c d) _).
  by intros [].
Defined.

(** Modelled from the spec: the puzzle description ([self.crossword]) that
    the missing [crossword] module builds.  It provides the set of
    variables, the vocabulary and a lookup [Overlap(x, y)] giving the pair
    of character positions at which the words of two crossing variables
    must agree, absent if the pair does not cross. *)
Record Crossword := MkCrossword {
  variables : gset Var;
  words : gset string;
  overlaps : Var → Var → option (nat * nat)
}.

(** Modelled from the spec: [Neighbors(x)] is the set of variables [y ≠ x]
    such that an [Overlap(x, y)] exists ([crossword.neighbors] is a method
    of the missing class). *)
Definition neighbors (cw : Crossword) (x : Var) : gset Var :=
  filter (λ y, y ≠ x ∧ is_Some (overlaps cw x y)) (variables cw).

(** Modelled from the spec: an overlap belongs to an unordered pair of
    crossing variables, so the table of a valid puzzle is symmetric ... *)
Definition overlaps_symmetric (cw : Crossword) : Prop :=
  ∀ x y i j, overlaps cw x y = Some (i, j) → overlaps cw y x = Some (j, i).

(** ... and its positions lie inside the two slots. *)
Definition overlaps_in_range (cw : Crossword) : Prop :=
  ∀ x y i j, overlaps cw x y = Some (i, j) → i < var_length x ∧ j < var_length y.

Definition wf_crossword (cw : Crossword) : Prop :=
  overlaps_symmetric cw ∧ overlaps_in_range cw.

(** ** Exceptions, object store and the solver monad *)

Inductive exn :=
  | IndexError   (* string index out of range *)
  | KeyError     (* [self.domains[v]] for a [v] without a domain *)
  | ValueError   (* [min] of an empty sequence *)
  | InvalidRef   (* a reference to no dict: never produced by [dict()] or [copy()] *)
  | OutOfFuel.   (* the iteration bound of the model was reached *)

Inductive res (A : Type) :=
  | Val (a : A)
  | Exn (e : exn).
Arguments Val {A} a.
Arguments Exn {A} e.

Definition rbind {A B} (r : res A) (k : A → res B) : res B :=
  match r with
  | Val a => k a
  | Exn e => Exn e
  end.

Notation "'let?' x ':=' r 'in' k" := (rbind r (λ x, k))
  (at level 10, x binder, k at level 200).

(** Dict objects are passed by reference: a [loc] names a cell of the
    object store. *)
Definition loc := nat.

(** Ghost trace of the calls that the properties speak about. *)
Inductive event :=
  | EvRevise (x y : Var) (revised : bool)   (* [revise(x, y)] returned [revised] *)
  | EvBacktrack (assignment : loc).         (* [backtrack(assignment)] was entered *)

Record solver := MkSolver {
  domains : gmap Var (gset string);     (* [self.domains] *)
  heap : list (gmap Var string);        (* the assignment dicts created so far *)
  log : list event
}.

Definition M (A : Type) : Type := solver → res A * solver.

Definition ret {A} (a : A) : M A := λ s, (Val a, s).

Definition bind {A B} (m : M A) (k : A → M B) : M B :=
  λ s, match m s with
       | (Val a, s') => k a s'
       | (Exn e, s') => (Exn e, s')
       end.

Definition raise {A} (e : exn) : M A := λ s, (Exn e, s).

Definition lift {A} (r : res A) : M A := λ s, (r, s).

Notation "'let!' x ':=' m 'in' k" := (bind m (λ x, k))
  (at level 10, x binder, k at level 200).

(** [self.domains[v]] *)
Definition get_domain (v : Var) : M (gset string) :=
  λ s, match domains s !! v with
       | Some d => (Val d, s)
       | None => (Exn KeyError, s)
       end.

(** In-place update of the set object [self.domains[v]]. *)
Definition set_domain (v : Var) (d : gset string) : M unit :=
  λ s, (Val (), MkSolver (<[v := d]> (domains s)) (heap s) (log s)).

Definition emit (e : event) : M unit :=
  λ s, (Val (), MkSolver (domains s) (heap s) (log s ++ [e])).

Definition read_dict (l : loc) : M (gmap Var string) :=
  λ s, match heap s !! l with
       | Some a => (Val a, s)
       | None => (Exn InvalidRef, s)
       end.

(** [dict()] and [a.copy()]: a fresh object. *)
Definition alloc_dict (a : gmap Var string) : M loc :=
  λ s, (Val (length (heap s)), MkSolver (domains s) (heap s ++ [a]) (log s)).

Definition dict_copy (l : loc) : M loc :=
  let! a := read_dict l in alloc_dict a.

(** [d[var] = value] on the object at [l]. *)
Definition dict_set (l : loc) (var : Var) (value : string) : M unit :=
  λ s, match heap s !! l with
       | Some a => (Val (), MkSolver (domains s) (<[l := <[var := value]> a]> (heap s)) (log s))
       | None => (Exn InvalidRef, s)
       end.

(** [for x in xs: body(x)] *)
Fixpoint for_each {A} (xs : list A) (body : A → M unit) : M unit :=
  match xs with
  | [] => ret ()
  | x :: xs' => let! _ := body x in for_each xs' body
  end.

(** [w[i]] for a non-negative index. *)
Definition char_at (w : string) (i : nat) : res Ascii.ascii :=
  match String.get i w with
  | Some c => Val c
  | None => Exn IndexError
  end.

Section CrosswordCreator.

Context (cw : Crossword).

(** ** [__init__] *)

Definition CrosswordCreator_init : solver :=
  MkSolver (gset_to_gmap (words cw) (variables cw)) [] [].

(** ** [enforce_node_consistency] *)

Definition node_step (var : Var) : M unit :=
  let! d := get_domain var in
  let words_to_remove : gset string :=
    filter (λ word, var_length var ≠ String.length word) d in
  set_domain var (d ∖ words_to_remove).

Definition enforce_node_consistency : M unit :=
  λ s, for_each (elements (dom (domains s))) node_step s.

(** ** [revise] *)

(** [any(x_word[i] == y_word[j] for y_word in ys)] *)
Fixpoint any_agree (i j : nat) (x_word : string) (ys : list string) : res bool :=
  match ys with
  | [] => Val false
  | y_word :: ys' =>
      let? a := char_at x_word i in
      let? b := char_at y_word j in
      if bool_decide (a = b) then Val true else any_agree i j x_word ys'
  end.

Fixpoint revise_loop (y : Var) (i j : nat) (xs : list string)
    (words_to_remove : gset string) (revised : bool) : M (gset string * bool) :=
  match xs with
  | [] => ret (words_to_remove, revised)
  | x_word :: xs' =>
      let! y_domain := get_domain y in
      let! is_consistent := lift (any_agree i j x_word (elements y_domain)) in
      if is_consistent
      then revise_loop y i j xs' words_to_remove revised
      else revise_loop y i j xs' ({[x_word]} ∪ words_to_remove) true
  end.

Definition revise (x y : Var) : M bool :=
  match overlaps cw x y with
  | None =>
      let! _ := emit (EvRevise x y false) in
      ret false
  | Some (i, j) =>
      let! x_domain := get_domain x in
      let! '(words_to_remove, revised) :=
        revise_loop y i j (elements x_domain) ∅ false in
      let! d := get_domain x in
      let! _ := set_domain x (d ∖ words_to_remove) in
      let! _ := emit (EvRevise x y revised) in
      ret revised
  end.

(** ** [ac3] *)

Definition initial_arcs : list (Var * Var) :=
  x ← elements (variables cw);
  y ← elements (neighbors cw x);
  [(x, y)].

(** The [while queue] loop.  [fuel] bounds the number of iterations. *)
Fixpoint ac3_loop (fuel : nat) (queue : list (Var * Var)) : M bool :=
  match fuel with
  | 0 => raise OutOfFuel
  | S fuel' =>
      match queue with
      | [] => ret true
      | (x, y) :: queue' =>
          let! revised := revise x y in
          if revised then
            let! dx := get_domain x in
            if bool_decide (dx = ∅) then ret false
            else ac3_loop fuel'
                   (queue' ++ ((λ z, (z, x)) <$> elements (neighbors cw x ∖ {[y]})))
          else ac3_loop fuel' queue'
      end
  end.

(** Every iteration either shortens the queue or removes a word and adds at
    most one arc per variable, which bounds the number of iterations. *)
Definition total_size (ds : gmap Var (gset string)) : nat :=
  map_fold (λ _ d n, size d + n) 0 ds.

Definition ac3_fuel (queue : list (Var * Var)) (s : solver) : nat :=
  S (length queue + total_size (domains s) * S (size (variables cw))).

Definition ac3 (arcs : option (list (Var * Var))) : M bool :=
  let queue :=
    match arcs with
    | None => initial_arcs
    | Some arcs => arcs
    end in
  λ s, ac3_loop (ac3_fuel queue s) queue s.

(** ** [assignment_complete] *)

Definition assignment_complete (assignment : loc) : M bool :=
  let! a := read_dict assignment in
  ret (bool_decide (dom a = variables cw)).

(** ** [consistent] *)

(** First loop: lengths, and no word used twice. *)
Fixpoint check_values (items : list (Var * string)) (values : gset string) : bool :=
  match items with
  | [] => true
  | (var, word) :: items' =>
      if bool_decide (var_length var ≠ String.length word) || bool_decide (word ∈ values)
      then false
      else check_values items' ({[word]} ∪ values)
  end.

(** Inner loop of the second pass: [for var2 in neighbors(var1)]. *)
Fixpoint check_neighbors (a : gmap Var string) (var1 : Var) (word1 : string)
    (ns : list Var) : res bool :=
  match ns with
  | [] => Val true
  | var2 :: ns' =>
      match a !! var2 with
      | None => check_neighbors a var1 word1 ns'
      | Some word2 =>
          match overlaps cw var1 var2 with
          | None => check_neighbors a var1 word1 ns'
          | Some (i, j) =>
              let? c1 := char_at word1 i in
              let? c2 := char_at word2 j in
              if bool_decide (c1 ≠ c2) then Val false
              else check_neighbors a var1 word1 ns'
          end
      end
  end.

(** Second loop: [for var1 in assignment]. *)
Fixpoint check_overlaps (a : gmap Var string) (items : list (Var * string)) : res bool :=
  match items with
  | [] => Val true
  | (var1, word1) :: items' =>
      let? ok := check_neighbors a var1 word1 (elements (neighbors cw var1)) in
      if ok then check_overlaps a items' else Val false
  end.

Definition consistent_dict (a : gmap Var string) : res bool :=
  if check_values (map_to_list a) ∅
  then check_overlaps a (map_to_list a)
  else Val false.

Definition consistent (assignment : loc) : M bool :=
  let! a := read_dict assignment in
  lift (consistent_dict a).

(** ** [order_domain_values] *)

(** [for neighbor_value in self.domains[neighbor]: if value[i] != neighbor_value[j]: constraint[value] += 1] *)
Fixpoint count_conflicts (i j : nat) (value : string) (nvs : list string)
    (c : nat) : res nat :=
  match nvs with
  | [] => Val c
  | neighbor_value :: nvs' =>
      let? a := char_at value i in
      let? b := char_at neighbor_value j in
      count_conflicts i j value nvs' (if bool_decide (a ≠ b) then S c else c)
  end.

Fixpoint odv_neighbors (var : Var) (value : string) (ns : list Var) (c : nat) : M nat :=
  match ns with
  | [] => ret c
  | neighbor :: ns' =>
      match overlaps cw var neighbor with
      | None => odv_neighbors var value ns' c
      | Some (i, j) =>
          let! d := get_domain neighbor in
          let! c' := lift (count_conflicts i j value (elements d) c) in
          odv_neighbors var value ns' c'
      end
  end.

(** [constraint] is the [defaultdict(int)]: a missing key reads as 0. *)
Fixpoint odv_values (var : Var) (ns : list Var) (values : list string)
    (constraint : gmap string nat) : M (gmap string nat) :=
  match values with
  | [] => ret constraint
  | value :: values' =>
      let! c := odv_neighbors var value ns (default 0 (constraint !! value)) in
      odv_values var ns values' (<[value := c]> constraint)
  end.

(** [sorted(l, key=key)]: stable, ascending. *)
Fixpoint insert_by {A} (key : A → nat) (x : A) (l : list A) : list A :=
  match l with
  | [] => [x]
  | y :: l' => if bool_decide (key x ≤ key y) then x :: y :: l' else y :: insert_by key x l'
  end.

Definition sorted_by {A} (key : A → nat) (l : list A) : list A :=
  foldr (insert_by key) [] l.

Definition order_domain_values (var : Var) (assignment : loc) : M (list string) :=
  let! a := read_dict assignment in
  let neighbors := neighbors cw var ∖ dom a in
  let! d := get_domain var in
  let! constraint := odv_values var (elements neighbors) (elements d) ∅ in
  let! d' := get_domain var in
  ret (sorted_by (λ value, default 0 (constraint !! value)) (elements d')).

(** ** [select_unassigned_variable] *)

(** The key [(len(self.domains[var]), -len(neighbors(var)))]. *)
Definition mrv_key (var : Var) : M (nat * Z) :=
  let! d := get_domain var in
  ret (size d, (- Z.of_nat (size (neighbors cw var)))%Z).

(** Python's comparison of two such tuples. *)
Definition key_lt (k1 k2 : nat * Z) : bool :=
  bool_decide (k1.1 < k2.1) || (bool_decide (k1.1 = k2.1) && bool_decide (k1.2 < k2.2)%Z).

(** [min(l, key=...)] after its first element: the first minimal one wins. *)
Fixpoint min_by (best : Var) (kbest : nat * Z) (l : list Var) : M Var :=
  match l with
  | [] => ret best
  | var :: l' =>
      let! k := mrv_key var in
      if key_lt k kbest then min_by var k l' else min_by best kbest l'
  end.

Definition unassigned (a : gmap Var string) : list Var :=
  filter (λ var, var ∉ dom a) (elements (variables cw)).

Definition select_unassigned_variable (assignment : loc) : M Var :=
  let! a := read_dict assignment in
  match unassigned a with
  | [] => raise ValueError
  | var :: l =>
      let! k := mrv_key var in
      min_by var k l
  end.

(** ** [backtrack] *)

(** Truth value of [result]: [None] and the empty dict are false. *)
Definition truthy (result : option loc) : M bool :=
  match result with
  | None => ret false
  | Some l =>
      let! a := read_dict l in
      ret (bool_decide (a ≠ ∅))
  end.

(** [for value in ...] of [backtrack]; [rec] is the recursive call. *)
Fixpoint backtrack_loop (rec : loc → M (option loc)) (assignment : loc) (var : Var)
    (values : list string) : M (option loc) :=
  match values with
  | [] => ret None
  | value :: values' =>
      let! new_assignment := dict_copy assignment in
      let! _ := dict_set new_assignment var value in
      let! ok := consistent new_assignment in
      if ok then
        let! result := rec new_assignment in
        let! t := truthy result in
        if t then ret result
        else backtrack_loop rec assignment var values'
      else backtrack_loop rec assignment var values'
  end.

(** [fuel] bounds the recursion depth. *)
Fixpoint backtrack_fuel (fuel : nat) (assignment : loc) : M (option loc) :=
  match fuel with
  | 0 => raise OutOfFuel
  | S fuel' =>
      let! _ := emit (EvBacktrack assignment) in
      let! complete := assignment_complete assignment in
      if complete then ret (Some assignment)
      else
        let! var := select_unassigned_variable assignment in
        let! values := order_domain_values var assignment in
        backtrack_loop (backtrack_fuel fuel') assignment var values
  end.

(** Every recursive call binds one more variable of the puzzle. *)
Definition backtrack (assignment : loc) : M (option loc) :=
  let! a := read_dict assignment in
  backtrack_fuel (S (length (unassigned a))) assignment.

(** ** [solve] *)

Definition solve : M (option loc) :=
  let! _ := enforce_node_consistency in
  let! _ := ac3 None in
  let! assignment := alloc_dict ∅ in
  backtrack assignment.

End CrosswordCreator.

(** ** [letter_grid] *)

(** The 2D array of [letter_grid]: rows of cells, a cell [None] or a
    letter. *)
Definition grid := list (list (option Ascii.ascii)).

(** The cell of the [k]-th letter of a variable: down the column for
    [DOWN], along the row for [ACROSS]. *)
Definition cell (variable : Var) (k : nat) : nat * nat :=
  (var_i variable + (if decide (var_direction variable = DOWN) then k else 0),
   var_j variable + (if decide (var_direction variable = ACROSS) then k else 0)).

(** [letters[i][j] = c] *)
Definition grid_set (letters : grid) (i j : nat) (c : Ascii.ascii) : res grid :=
  match letters !! i with
  | None => Exn IndexError
  | Some row =>
      if decide (j < length row)
      then Val (<[i := <[j := Some c]> row]> letters)
      else Exn IndexError
  end.

(** [for k in range(len(word)): letters[i][j] = word[k]] *)
Fixpoint write_word (variable : Var) (word : string) (ks : list nat)
    (letters : grid) : res grid :=
  match ks with
  | [] => Val letters
  | k :: ks' =>
      let? c := char_at word k in
      let? letters' := grid_set letters (cell variable k).1 (cell variable k).2 c in
      write_word variable word ks' letters'
  end.

(** [for variable, word in assignment.items()] *)
Fixpoint letter_grid_loop (items : list (Var * string)) (letters : grid) : res grid :=
  match items with
  | [] => Val letters
  | (variable, word) :: items' =>
      let? letters' := write_word variable word (seq 0 (String.length word)) letters in
      letter_grid_loop items' letters'
  end.

(** [width] and [height] are [self.crossword.width] and
    [self.crossword.height], fields of the missing class. *)
Definition letter_grid (width height : nat) (assignment : loc) : M grid :=
  let! a := read_dict assignment in
  lift (letter_grid_loop (map_to_list a) (replicate height (replicate width None))).

(** * Vocabulary of the specification *)

(** Two words agree at a position pair. *)
Definition agree_at (i j : nat) (w w' : string) : Prop :=
  ∃ c, String.get i w = Some c ∧ String.get j w' = Some c.

(** Some word of [Domain[y]] agrees with [w] at the position pair. *)
Definition supported (s : solver) (y : Var) (i j : nat) (w : string) : Prop :=
  ∃ dy w', domains s !! y = Some dy ∧ w' ∈ dy ∧ agree_at i j w w'.

Global Instance agree_at_dec i j w w' : Decision (agree_at i j w w').
Proof.
  unfold agree_at.
  destruct (String.get i w) as [c|] eqn:E1.
  - destruct (decide (String.get j w' = Some c)) as [E2|E2].
    + left. eauto.
    + right. intros (c' & ? & ?). congruence.
  - right. intros (c' & ? & ?). congruence.
Defined.

Global Instance supported_dec s y i j w : Decision (supported s y i j w).
Proof.
  unfold supported.
  destruct (domains s !! y) as [dy|] eqn:E.
  - destruct (decide (set_Exists (agree_at i j w) dy)) as [H|H].
    + left. destruct H as (w' & ? & ?). eauto.
    + right. intros (dy' & w' & ? & ? & ?). apply H. exists w'. by simplify_eq.
  - right. intros (dy' & w' & ? & ? & ?). congruence.
Defined.

(** What [node_step] leaves of a domain. *)
Definition node_filter (var : Var) (d : gset string) : gset string :=
  d ∖ filter (λ word, var_length var ≠ String.length word) d.

Definition node_consistent (s : solver) : Prop :=
  ∀ v d w, domains s !! v = Some d → w ∈ d → String.length w = var_length v.

Definition shrinks (ds ds' : gmap Var (gset string)) : Prop :=
  ∀ v, option_Forall2 (⊆) (ds' !! v) (ds !! v).

Definition is_revise (e : event) : Prop :=
  match e with
  | EvRevise _ _ _ => True
  | EvBacktrack _ => False
  end.

(** The part of the solver that propagation may change, and how. *)
Definition propagates (s s' : solver) : Prop :=
  heap s' = heap s ∧ shrinks (domains s) (domains s') ∧
  ∃ evs, log s' = log s ++ evs ∧ Forall is_revise evs.

Definition is_backtrack (e : event) : Prop :=
  match e with
  | EvBacktrack _ => True
  | EvRevise _ _ _ => False
  end.

(** The part of the solver that the search may change, and how: the
    domains stay, dicts are only added, calls are traced. *)
Definition searches (s s' : solver) : Prop :=
  domains s' = domains s ∧ heap s `prefix_of` heap s' ∧
  ∃ evs, log s' = log s ++ evs ∧ Forall is_backtrack evs.

(** A computation that changes nothing of the solver. *)
Definition readonly {A} (m : M A) : Prop := ∀ s r s', m s = (r, s') → s' = s.

(** A computation that never stops for lack of fuel. *)
Definition fuel_free {A} (m : M A) : Prop :=
  ∀ s r s', m s = (r, s') → r ≠ Exn OutOfFuel.

(** The bindings of [a'] that [a] does not have take their words from the
    domains. *)
Definition from_domains (s : solver) (a a' : gmap Var string) : Prop :=
  ∀ v w, a' !! v = Some w → a !! v = None → ∃ d, domains s !! v = Some d ∧ w ∈ d.

Section vocabulary.

Context (cw : Crossword).

(** The arcs of the constraint graph. *)
Definition arc (x y : Var) : Prop := x ∈ variables cw ∧ y ∈ neighbors cw x.

(** Every word of [Domain[x]] has a supporting word in [Domain[y]]. *)
Definition arc_consistent (s : solver) (x y : Var) : Prop :=
  ∀ i j dx w, overlaps cw x y = Some (i, j) →
    domains s !! x = Some dx → w ∈ dx → supported s y i j w.

(** What [consistent] decides: lengths, distinct words, agreement of
    assigned neighbours at their overlap. *)
Definition Consistent (a : gmap Var string) : Prop :=
  (∀ v w, a !! v = Some w → String.length w = var_length v) ∧
  (∀ v1 v2 w, a !! v1 = Some w → a !! v2 = Some w → v1 = v2) ∧
  (∀ v1 v2 w1 w2 i j, a !! v1 = Some w1 → a !! v2 = Some w2 →
     v2 ∈ neighbors cw v1 → overlaps cw v1 v2 = Some (i, j) → agree_at i j w1 w2).

(** The second pass, for one [var1]. *)
Definition neighbors_agree (a : gmap Var string) (var1 : Var) (word1 : string)
    (ns : list Var) : Prop :=
  ∀ var2 word2 i j, var2 ∈ ns → a !! var2 = Some word2 →
    overlaps cw var1 var2 = Some (i, j) → agree_at i j word1 word2.

(** What the search may return on [a]: a complete extension of [a], which
    is [a] itself or has passed the consistency check. *)
Definition result_of (s : solver) (a a' : gmap Var string) : Prop :=
  a ⊆ a' ∧ dom a' = variables cw ∧ from_domains s a a' ∧ (a' = a ∨ Consistent a').

Definition rec_sound (rec : loc → M (option loc)) : Prop :=
  ∀ l s r s', rec l s = (r, s') →
    searches s s' ∧
    ∀ a l', heap s !! l = Some a → r = Val (Some l') →
      ∃ a', heap s' !! l' = Some a' ∧ result_of s a a'.

(** The store the search runs on: a domain for every variable of the
    puzzle, holding words of the variable's length. *)
Definition store_ok (s : solver) : Prop :=
  (∀ v, v ∈ variables cw → is_Some (domains s !! v)) ∧ node_consistent s.

(** A complete consistent assignment that extends [a] with words of the
    domains. *)
Definition solution (s : solver) (a b : gmap Var string) : Prop :=
  a ⊆ b ∧ dom b = variables cw ∧ Consistent b ∧ from_domains s a b.

(** What the search on [a] with [n] levels of recursion is known to do. *)
Definition rec_complete (n : nat) : Prop :=
  ∀ l s a, store_ok s → heap s !! l = Some a → dom a ⊆ variables cw →
    (dom a = variables cw → Consistent a) →
    length (unassigned cw a) < n →
    ∃ r s', backtrack_fuel cw n l s = (Val r, s') ∧ (r = None → ∀ b, ¬ solution s a b).

End vocabulary.

(** A word of [Domain[y]] agrees with [w] at the overlap of [x] and [y]. *)
Definition has_support (cw : Crossword) (dy : gset string) (x y : Var) (w : string) : Prop :=
  match overlaps cw x y with
  | Some (i, j) => ∃ w', w' ∈ dy ∧ agree_at i j w w'
  | None => True
  end.

(** A step of node consistency or of propagation. *)
Inductive propagation_step (cw : Crossword) (s s' : solver) : Prop :=
  | step_node_step var r :
      node_step var s = (r, s') → propagation_step cw s s'
  | step_enforce_node_consistency r :
      enforce_node_consistency s = (r, s') → propagation_step cw s s'
  | step_revise x y r :
      revise cw x y s = (r, s') → propagation_step cw s s'
  | step_ac3 arcs r :
      ac3 cw arcs s = (r, s') → propagation_step cw s s'.

(** A call made during the search. *)
Inductive search_call (cw : Crossword) (s s' : solver) : Prop :=
  | call_backtrack l r :
      backtrack cw l s = (r, s') → search_call cw s s'
  | call_select_unassigned_variable l r :
      select_unassigned_variable cw l s = (r, s') → search_call cw s s'
  | call_order_domain_values var l r :
      order_domain_values cw var l s = (r, s') → search_call cw s s'
  | call_consistent l r :
      consistent cw l s = (r, s') → search_call cw s s'
  | call_assignment_complete l r :
      assignment_complete cw l s = (r, s') → search_call cw s s'.

(** The solver after [enforce_node_consistency] and [ac3]. *)
Definition propagated (cw : Crossword) : solver :=
  (ac3 cw None (enforce_node_consistency (CrosswordCreator_init cw)).2).2.

(** C1 as the specification states it: after a failure of AC-3, [solve]
    returns [None] and [backtrack] is never entered. *)
Definition ac3_failure_skips_search (cw : Crossword) : Prop :=
  ∀ s1 r s2 v d,
    enforce_node_consistency (CrosswordCreator_init cw) = (Val (), s1) →
    domains s1 !! v = Some d → d ≠ ∅ →
    ac3 cw None s1 = (r, s2) → domains s2 !! v = Some ∅ →
    r = Val false ∧
    ∃ s3, solve cw (CrosswordCreator_init cw) = (Val None, s3) ∧
          ∀ l, EvBacktrack l ∉ log s3.

(** C3 as the specification states it, for the assignment at [l]; [base]
    is the empty assignment when the solutions counted are all those over
    the domains, and the assignment at [l] when they are its extensions. *)
Definition search_complete (cw : Crossword) (s : solver) (l : loc)
    (base : gmap Var string) : Prop :=
  ∃ r s', backtrack cw l s = (Val r, s') ∧
    ((∃ b, solution cw s base b) →
       ∃ l' a', r = Some l' ∧ heap s' !! l' = Some a' ∧ solution cw s base a') ∧
    ((∀ b, ¬ solution cw s base b) → r = None).

(** * Vocabulary of the further properties *)




(** A complete consistent assignment that takes every word from the
    vocabulary of the puzzle. *)
Definition puzzle_solution (cw : Crossword) (b : gmap Var string) : Prop :=
  dom b = variables cw ∧ Consistent cw b ∧ ∀ v w, b !! v = Some w → w ∈ words cw.

(** The arcs of a work list join two different variables of the puzzle. *)
Definition arcs_of_puzzle (cw : Crossword) (q : list (Var * Var)) : Prop :=
  ∀ x y, (x, y) ∈ q → x ∈ variables cw ∧ y ∈ variables cw ∧ x ≠ y.

(** [letters[i][j]], when the cell exists. *)
Definition grid_get (letters : grid) (i j : nat) : option (option Ascii.ascii) :=
  row ← letters !! i; row !! j.

(** A grid of [height] rows of [width] cells. *)
Definition shaped (width height : nat) (letters : grid) : Prop :=
  length letters = height ∧ ∀ row, row ∈ letters → length row = width.

(** The writes that the loops of [letter_grid] perform, in order. *)
Definition writes_of (variable : Var) (word : string) (ks : list nat)
    : list (nat * nat * option Ascii.ascii) :=
  (λ k, (cell variable k, String.get k word)) <$> ks.

Definition all_writes (items : list (Var * string)) : list (nat * nat * option Ascii.ascii) :=
  items ≫= λ '(variable, word), writes_of variable word (seq 0 (String.length word)).

(** The nested loops perform the writes of [all_writes], one after the
    other, and stop at the first one outside the grid. *)
Fixpoint apply_writes (ws : list (nat * nat * option Ascii.ascii)) (letters : grid)
    : res grid :=
  match ws with
  | [] => Val letters
  | (i, j, c) :: ws' =>
      match c with
      | None => Exn IndexError
      | Some c => let? letters' := grid_set letters i j c in apply_writes ws' letters'
      end
  end.

(** * Example puzzles *)

Definition across3 : Var := MkVar 0 0 ACROSS 3.

Definition down3 : Var := MkVar 0 1 DOWN 3.

(** The two slots cross at position 1 of [across3], position 0 of [down3]. *)
Definition crossing (x y : Var) : option (nat * nat) :=
  if bool_decide (x = across3 ∧ y = down3) then Some (1, 0)
  else if bool_decide (x = down3 ∧ y = across3) then Some (0, 1)
  else None.

Definition two_slots (vocabulary : gset string) : Crossword :=
  MkCrossword {[across3; down3]} vocabulary crossing.

Definition solvable : Crossword := two_slots {["cat"; "car"; "rat"; "art"; "ox"]}.

(** No word has at position 0 the letter another has at position 1. *)
Definition unsolvable : Crossword := two_slots {["cat"; "car"; "rat"]}.

Definition one_slot : Crossword :=
  MkCrossword {[across3]} {["cat"; "dog"; "ox"]} (λ _ _, None).

(** The store of [solvable] after node consistency, and after AC-3. *)
Definition solvable_filtered : solver :=
  (enforce_node_consistency (CrosswordCreator_init solvable)).2.

Definition solvable_propagated : solver := propagated solvable.

(** The solver of [solvable] at the start of the search: the propagated
    domains and one empty assignment. *)
Definition solvable_search : solver :=
  MkSolver (domains solvable_propagated) [∅] [].

(** The store of [unsolvable] after node consistency, and after AC-3. *)
Definition unsolvable_filtered : solver :=
  (enforce_node_consistency (CrosswordCreator_init unsolvable)).2.

Definition unsolvable_propagated : solver := propagated unsolvable.

(** The propagated store of [one_slot] and a complete assignment that
    gives its slot of length 3 a word of length 5. *)
Definition zebra : gmap Var string := {[across3 := "zebra"]}.

Definition one_slot_search : solver :=
  MkSolver (domains (propagated one_slot)) [zebra] [].

(** A solution of [solvable], and the solver that holds it. *)
Definition cat_art : gmap Var string := {[across3 := "cat"; down3 := "art"]}.

Definition cat_art_store : solver := MkSolver ∅ [{[across3 := "cat"]}; cat_art] [].

(** The grid of [cat_art] on a board of 3 by 3 cells. *)
Definition cat_art_grid : grid :=
  match (letter_grid 3 3 1 cat_art_store).1 with Val letters => letters | Exn _ => [] end.

(** An assignment of [one_slot] that also binds a variable of another
    puzzle. *)
Definition overfull : gmap Var string := {[across3 := "cat"; down3 := "dog"]}.

Definition overfull_search : solver :=
  MkSolver (domains (propagated one_slot)) [overfull] [].

(** The solver of [unsolvable] at the start of the search. *)
Definition unsolvable_search : solver :=
  MkSolver (domains unsolvable_propagated) [∅] [].

(** A puzzle without slots. *)
Definition no_slots : Crossword := MkCrossword ∅ {["cat"]} (λ _ _, None).

(** Decidable facts about concrete sets are settled by evaluation. *)
Ltac by_compute := apply (bool_decide_unpack _); vm_compute; exact I.

Create HintDb readonly.

Create HintDb fuel_free.

(** * Properties *)

(** ** Reasoning in the monad *)

Lemma bind_val {A B} (m : M A) (k : A → M B) s a s1 :
  m s = (Val a, s1) → bind m k s = k a s1.
Proof. intros H. unfold bind. by rewrite H. Qed.

Lemma bind_exn {A B} (m : M A) (k : A → M B) s e s1 :
  m s = (Exn e, s1) → bind m k s = (Exn e, s1).
Proof. intros H. unfold bind. by rewrite H. Qed.

Lemma bind_inv {A B} (m : M A) (k : A → M B) s r s' :
  bind m k s = (r, s') →
  (∃ a s1, m s = (Val a, s1) ∧ k a s1 = (r, s')) ∨
  (∃ e, m s = (Exn e, s') ∧ r = Exn e).
Proof.
  unfold bind. destruct (m s) as [[a|e] s1]; intros H.
  - left. eauto.
  - right. exists e. by simplify_eq.
Qed.

Lemma get_domain_inv v s r s' :
  get_domain v s = (r, s') →
  s' = s ∧ ((∃ d, domains s !! v = Some d ∧ r = Val d) ∨
            (domains s !! v = None ∧ r = Exn KeyError)).
Proof.
  unfold get_domain. destruct (domains s !! v) as [d|]; intros; simplify_eq; eauto.
Qed.

Lemma get_domain_some v s d :
  domains s !! v = Some d → get_domain v s = (Val d, s).
Proof. intros H. unfold get_domain. by rewrite H. Qed.

Lemma read_dict_some l s a :
  heap s !! l = Some a → read_dict l s = (Val a, s).
Proof. intros H. unfold read_dict. by rewrite H. Qed.

Lemma read_dict_inv l s r s' :
  read_dict l s = (r, s') →
  s' = s ∧ ((∃ a, heap s !! l = Some a ∧ r = Val a) ∨
            (heap s !! l = None ∧ r = Exn InvalidRef)).
Proof.
  unfold read_dict. destruct (heap s !! l) as [a|]; intros; simplify_eq; eauto.
Qed.

Lemma char_at_val w i c : char_at w i = Val c ↔ String.get i w = Some c.
Proof. unfold char_at. destruct (String.get i w); split; intros; by simplify_eq. Qed.

Lemma string_get_lt w i : i < String.length w → is_Some (String.get i w).
Proof.
  revert i. induction w as [|c w IH]; intros i Hi; simpl in *; [lia|].
  destruct i as [|i]; [eauto|]. apply IH. lia.
Qed.

Lemma string_get_some_lt w i c : String.get i w = Some c → i < String.length w.
Proof.
  revert i. induction w as [|a w IH]; intros i; simpl; [done|].
  destruct i as [|i]; [lia|]. intros H%IH. lia.
Qed.

Lemma char_at_lt w i : i < String.length w → ∃ c, char_at w i = Val c.
Proof.
  intros [c Hc]%string_get_lt. exists c. by apply char_at_val.
Qed.

(** ** Node consistency *)

Section node_consistency.

Context (cw : Crossword).

Lemma elem_of_node_filter var d w :
  w ∈ node_filter var d ↔ w ∈ d ∧ String.length w = var_length var.
Proof.
  unfold node_filter. rewrite elem_of_difference, elem_of_filter.
  split.
  - intros [Hd Hn]. split; [done|].
    destruct (decide (var_length var = String.length w)); [done|].
    destruct Hn. done.
  - intros [Hd Hl]. split; [done|]. intros [Hne _]. congruence.
Qed.

Lemma node_filter_idemp var d : node_filter var (node_filter var d) = node_filter var d.
Proof.
  apply set_eq. intros w. rewrite !elem_of_node_filter. tauto.
Qed.

Lemma node_step_some var d s :
  domains s !! var = Some d →
  node_step var s =
    (Val (), MkSolver (<[var := node_filter var d]> (domains s)) (heap s) (log s)).
Proof.
  intros H. unfold node_step. erewrite bind_val by by apply get_domain_some.
  reflexivity.
Qed.

Lemma for_each_node_step l s :
  (∀ v, v ∈ l → is_Some (domains s !! v)) →
  ∃ s', for_each l node_step s = (Val (), s') ∧
        heap s' = heap s ∧ log s' = log s ∧
        ∀ v, domains s' !! v =
             (λ d, if decide (v ∈ l) then node_filter v d else d) <$> (domains s !! v).
Proof.
  revert s. induction l as [|x l IH]; intros s Hl.
  - exists s. repeat split; try done.
    intros v. destruct (domains s !! v); [|done].
    unfold fmap, option_fmap, option_map. case_decide as Hv; [|done].
    by apply not_elem_of_nil in Hv.
  - destruct (Hl x) as [d Hd]; [by left|].
    simpl. erewrite bind_val by by apply node_step_some.
    destruct (IH (MkSolver (<[x := node_filter x d]> (domains s)) (heap s) (log s)))
      as (s' & Hrun & Hh & Hlog & Hdom).
    { intros v Hv. simpl. destruct (decide (x = v)) as [->|Hne].
      - rewrite lookup_insert_eq. eauto.
      - rewrite lookup_insert_ne by done. apply Hl. by right. }
    exists s'. repeat split; try done.
    intros v. rewrite Hdom. simpl.
    destruct (decide (x = v)) as [->|Hne].
    + rewrite lookup_insert_eq, Hd. simpl.
      rewrite (decide_True (P := v ∈ v :: l)) by by left.
      destruct (decide (v ∈ l)); [by rewrite node_filter_idemp|done].
    + rewrite lookup_insert_ne by done.
      destruct (domains s !! v) as [dv|]; simpl; [|done].
      destruct (decide (v ∈ l)) as [Hin|Hnin].
      * by rewrite decide_True by by right.
      * rewrite decide_False; [done|].
        intros [?|?]%elem_of_cons; congruence.
Qed.

(** [enforce_node_consistency] never raises and filters every domain. *)
Lemma enforce_node_consistency_spec s :
  ∃ s', enforce_node_consistency s = (Val (), s') ∧
        heap s' = heap s ∧ log s' = log s ∧
        ∀ v, domains s' !! v = node_filter v <$> (domains s !! v).
Proof.
  destruct (for_each_node_step (elements (dom (domains s))) s)
    as (s' & Hrun & Hh & Hlog & Hdom).
  { intros v Hv. apply elem_of_elements in Hv. by apply elem_of_dom. }
  exists s'. repeat split; try done.
  intros v. rewrite Hdom.
  destruct (domains s !! v) as [d|] eqn:E; simpl; [|done].
  rewrite decide_True; [done|].
  apply elem_of_elements, elem_of_dom. eauto.
Qed.

End node_consistency.

(** ** Revision of one arc *)

Lemma any_agree_val i j w ys b :
  any_agree i j w ys = Val b →
  (b = true ↔ ∃ w', w' ∈ ys ∧ agree_at i j w w').
Proof.
  revert b. induction ys as [|y ys IH]; intros b; simpl.
  - intros [= <-]. split; [done|]. intros (w' & Hw' & _). by apply not_elem_of_nil in Hw'.
  - destruct (char_at w i) as [a|] eqn:Ea; simpl; [|done].
    destruct (char_at y j) as [c|] eqn:Ec; simpl; [|done].
    apply char_at_val in Ea, Ec.
    case_bool_decide as Hac.
    + intros [= <-]. split; [|done]. intros _. exists y. split; [by left|].
      exists a. by subst.
    + intros Hrest. rewrite (IH _ Hrest). split.
      * intros (w' & Hw' & Hag). exists w'. split; [by right|done].
      * intros (w' & [->|Hw']%elem_of_cons & Hag); [|by eauto].
        destruct Hag as (c' & H1 & H2). congruence.
Qed.

Lemma any_agree_total i j w ys :
  i < String.length w → (∀ w', w' ∈ ys → j < String.length w') →
  ∃ b, any_agree i j w ys = Val b.
Proof.
  intros Hi. induction ys as [|y ys IH]; intros Hj; simpl; [eauto|].
  destruct (char_at_lt w i Hi) as [a ->].
  destruct (char_at_lt y j) as [c ->]; [apply Hj; by left|]. simpl.
  case_bool_decide; [eauto|]. apply IH. intros w' Hw'. apply Hj. by right.
Qed.

Lemma revise_loop_inv y i j xs rem rev s r s' :
  revise_loop y i j xs rem rev s = (r, s') →
  s' = s ∧
  ∀ rem' rev', r = Val (rem', rev') →
    (∀ w, w ∈ rem' ↔ w ∈ rem ∨ (w ∈ xs ∧ ¬ supported s y i j w)) ∧
    (rev' = true ↔ rev = true ∨ ∃ w, w ∈ xs ∧ ¬ supported s y i j w).
Proof.
  revert rem rev. induction xs as [|x xs IH]; intros rem rev; simpl.
  - unfold ret. intros [= <- <-]. split; [done|]. intros ?? [= <- <-].
    split.
    + intros w. split; [by left|]. intros [?|[Hw _]]; [done|]. by apply not_elem_of_nil in Hw.
    + split; [by left|]. intros [?|(w & Hw & _)]; [done|]. by apply not_elem_of_nil in Hw.
  - intros H. apply bind_inv in H as [(dy & s1 & Hg & H)|(e & Hg & ->)].
    2:{ apply get_domain_inv in Hg as [-> _]. done. }
    apply get_domain_inv in Hg as [-> [(dy' & Hdy & [= <-])|[_ ?]]]; [|done].
    apply bind_inv in H as [(b & s1 & Hl & H)|(e & Hl & ->)].
    2:{ unfold lift in Hl. by simplify_eq. }
    unfold lift in Hl. injection Hl as Hany <-.
    pose proof (any_agree_val _ _ _ _ _ Hany) as Hb.
    assert (b = true ↔ supported s y i j x) as Hsup.
    { rewrite Hb. unfold supported. split.
      - intros (w' & Hw' & Hag). exists dy, w'. by rewrite elem_of_elements in Hw'.
      - intros (dy' & w' & Hdy' & Hw' & Hag). exists w'.
        rewrite elem_of_elements. by simplify_eq. }
    destruct b.
    + apply IH in H as [-> H]. split; [done|]. intros rem' rev' Hr.
      destruct (H _ _ Hr) as [H1 H2]. split.
      * intros w. rewrite H1. split.
        -- intros [?|[Hw Hn]]; [by left|]. right. split; [by right|done].
        -- intros [?|[[->|Hw]%elem_of_cons Hn]]; [by left| |by right].
           destruct Hn. by apply Hsup.
      * rewrite H2. split.
        -- intros [?|(w & Hw & Hn)]; [by left|]. right. exists w. split; [by right|done].
        -- intros [?|(w & [->|Hw]%elem_of_cons & Hn)]; [by left| |right; by eauto].
           destruct Hn. by apply Hsup.
    + assert (¬ supported s y i j x) as Hnx.
      { intros Hx. apply Hsup in Hx. done. }
      apply IH in H as [-> H]. split; [done|]. intros rem' rev' Hr.
      destruct (H _ _ Hr) as [H1 H2]. split.
      * intros w. rewrite H1, elem_of_union, elem_of_singleton. split.
        -- intros [[->|?]|[Hw Hn]]; [right; split; [by left|done]|by left|].
           right. split; [by right|done].
        -- intros [?|[[->|Hw]%elem_of_cons Hn]]; [left; by right|left; by left|by right].
      * rewrite H2. split; [|by left]. intros _. right. exists x. split; [by left|done].
Qed.

Lemma revise_loop_total y i j xs rem rev s dy :
  domains s !! y = Some dy →
  (∀ w, w ∈ xs → i < String.length w) →
  (∀ w, w ∈ dy → j < String.length w) →
  ∃ rem' rev', revise_loop y i j xs rem rev s = (Val (rem', rev'), s).
Proof.
  intros Hdy Hi Hj. revert rem rev.
  induction xs as [|x xs IH]; intros rem rev; simpl; [unfold ret; eauto|].
  erewrite bind_val by by apply get_domain_some.
  destruct (any_agree_total i j x (elements dy)) as [b Hb].
  { apply Hi. by left. }
  { intros w' Hw'. apply Hj. by apply elem_of_elements. }
  erewrite bind_val by (unfold lift; by rewrite Hb).
  assert (∀ w, w ∈ xs → i < String.length w) as Hi'.
  { intros w Hw. apply Hi. by right. }
  destruct b; by apply IH.
Qed.

Section revise.

Context (cw : Crossword).

(** What a call of [revise] does, whenever it returns; an exception leaves
    the solver as it was. *)
Lemma revise_inv x y s r s' :
  revise cw x y s = (r, s') →
  match r with
  | Exn _ => s' = s
  | Val b =>
      heap s' = heap s ∧ log s' = log s ++ [EvRevise x y b] ∧
      match overlaps cw x y with
      | None => b = false ∧ domains s' = domains s
      | Some (i, j) =>
          ∃ dx dx', domains s !! x = Some dx ∧
            domains s' = <[x := dx']> (domains s) ∧
            (∀ w, w ∈ dx' ↔ w ∈ dx ∧ supported s y i j w) ∧
            (b = true ↔ ∃ w, w ∈ dx ∧ ¬ supported s y i j w)
      end
  end.
Proof.
  unfold revise. destruct (overlaps cw x y) as [[i j]|].
  - intros H. apply bind_inv in H as [(dx & s1 & Hg & H)|(e & Hg & ->)].
    2:{ by apply get_domain_inv in Hg as [-> _]. }
    apply get_domain_inv in Hg as [-> [(dx' & Hdx & [= <-])|[_ ?]]]; [|done].
    apply bind_inv in H as [([rem rev] & s1 & Hl & H)|(e & Hl & ->)].
    2:{ by apply revise_loop_inv in Hl as [-> _]. }
    apply revise_loop_inv in Hl as [-> Hl].
    destruct (Hl _ _ eq_refl) as [Hrem Hrev]. clear Hl.
    rewrite (bind_val _ _ _ _ _ (get_domain_some _ _ _ Hdx)) in H.
    cbv [bind set_domain emit ret] in H. simpl in H.
    injection H as <- <-. simpl. split; [done|]. split; [done|].
    exists dx, (dx ∖ rem). split; [done|]. split; [done|]. split.
    + intros w. rewrite elem_of_difference. split.
      * intros [Hw Hn]. split; [done|].
        destruct (decide (supported s y i j w)) as [?|Hns]; [done|].
        destruct Hn. apply Hrem. right. by rewrite elem_of_elements.
      * intros [Hw Hs]. split; [done|].
        intros [Hr|[_ Hn]]%Hrem; [by apply not_elem_of_empty in Hr|done].
    + split.
      * intros [?|(w & Hw & Hn)]%Hrev; [done|]. exists w.
        by rewrite elem_of_elements in Hw.
      * intros (w & Hw & Hn). apply Hrev. right. exists w.
        by rewrite elem_of_elements.
  - cbv [bind emit ret]. simpl. intros [= <- <-]. done.
Qed.

End revise.

(** ** Domains only shrink *)

Lemma shrinks_refl ds : shrinks ds ds.
Proof. intros v. destruct (ds !! v); by constructor. Qed.

Lemma shrinks_trans ds1 ds2 ds3 : shrinks ds1 ds2 → shrinks ds2 ds3 → shrinks ds1 ds3.
Proof.
  intros H12 H23 v. specialize (H12 v). specialize (H23 v).
  destruct H23 as [d3 d2 H|]; inversion H12; subst; constructor. set_solver.
Qed.

Lemma shrinks_insert ds x d d' :
  ds !! x = Some d → d' ⊆ d → shrinks ds (<[x := d']> ds).
Proof.
  intros Hx Hsub v. destruct (decide (x = v)) as [->|Hne].
  - rewrite lookup_insert_eq, Hx. by constructor.
  - rewrite lookup_insert_ne by done. apply shrinks_refl.
Qed.

Lemma shrinks_lookup ds ds' v d' :
  shrinks ds ds' → ds' !! v = Some d' →
  ∃ d, ds !! v = Some d ∧ d' ⊆ d ∧ size d' ≤ size d.
Proof.
  intros H Hv. specialize (H v). rewrite Hv in H.
  destruct (ds !! v) as [d|]; [|by inversion H].
  assert (d' ⊆ d) by by inversion H.
  exists d. split; [done|]. split; [done|]. by apply subseteq_size.
Qed.

Lemma shrinks_dom ds ds' : shrinks ds ds' → dom ds' = dom ds.
Proof.
  intros H. apply set_eq. intros v. rewrite !elem_of_dom.
  specialize (H v). inversion H; split; intros [? ?]; by eauto.
Qed.

Lemma propagates_refl s : propagates s s.
Proof.
  split; [done|]. split; [apply shrinks_refl|].
  exists []. by rewrite app_nil_r.
Qed.

Lemma propagates_trans s1 s2 s3 : propagates s1 s2 → propagates s2 s3 → propagates s1 s3.
Proof.
  intros (Hh1 & Hs1 & evs1 & Hl1 & Hf1) (Hh2 & Hs2 & evs2 & Hl2 & Hf2).
  split; [congruence|]. split; [by eapply shrinks_trans|].
  exists (evs1 ++ evs2). split.
  - by rewrite Hl2, Hl1, app_assoc.
  - by apply Forall_app.
Qed.

Lemma node_step_shrinks var s r s' :
  node_step var s = (r, s') → heap s' = heap s ∧ log s' = log s ∧
  shrinks (domains s) (domains s').
Proof.
  unfold node_step. intros H.
  apply bind_inv in H as [(d & s1 & Hg & H)|(e & Hg & ->)].
  - apply get_domain_inv in Hg as [-> [(d' & Hd & [= <-])|[_ ?]]]; [|done].
    unfold set_domain in H. injection H as <- <-. simpl.
    split; [done|]. split; [done|].
    eapply shrinks_insert; [done|]. set_solver.
  - apply get_domain_inv in Hg as [-> _]. split; [done|]. split; [done|].
    apply shrinks_refl.
Qed.

Section propagation.

Context (cw : Crossword).

Lemma revise_propagates x y s r s' :
  revise cw x y s = (r, s') → propagates s s'.
Proof.
  intros H. apply revise_inv in H. destruct r as [b|e].
  - destruct H as (Hh & Hl & H). split; [done|]. split.
    + destruct (overlaps cw x y) as [[i j]|].
      * destruct H as (dx & dx' & Hdx & -> & Hin & _).
        eapply shrinks_insert; [done|]. intros w Hw. by apply Hin in Hw as [? _].
      * destruct H as [_ ->]. apply shrinks_refl.
    + exists [EvRevise x y b]. split; [done|]. by repeat constructor.
  - subst. apply propagates_refl.
Qed.

Lemma ac3_loop_propagates n q s r s' :
  ac3_loop cw n q s = (r, s') → propagates s s'.
Proof.
  revert q s. induction n as [|n IH]; intros q s; simpl.
  - unfold raise. intros [= _ <-]. apply propagates_refl.
  - destruct q as [|[x y] q].
    + unfold ret. intros [= _ <-]. apply propagates_refl.
    + intros H. apply bind_inv in H as [(b & s1 & Hr & H)|(e & Hr & ->)].
      2:{ by eapply revise_propagates. }
      apply revise_propagates in Hr.
      eapply propagates_trans; [done|].
      destruct b.
      * apply bind_inv in H as [(dx & s2 & Hg & H)|(e & Hg & ->)].
        2:{ apply get_domain_inv in Hg as [-> _]. apply propagates_refl. }
        apply get_domain_inv in Hg as [-> _].
        case_bool_decide.
        -- unfold ret in H. injection H as _ <-. apply propagates_refl.
        -- by eapply IH.
      * by eapply IH.
Qed.

Lemma ac3_propagates arcs s r s' :
  ac3 cw arcs s = (r, s') → propagates s s'.
Proof. unfold ac3. apply ac3_loop_propagates. Qed.

End propagation.

(** ** Arc consistency *)

Section arc_consistency.

Context (cw : Crossword).

Lemma elem_of_neighbors x y :
  y ∈ neighbors cw x ↔ y ∈ variables cw ∧ y ≠ x ∧ is_Some (overlaps cw x y).
Proof. unfold neighbors. rewrite elem_of_filter. tauto. Qed.

Lemma elem_of_initial_arcs x y : (x, y) ∈ initial_arcs cw ↔ arc cw x y.
Proof.
  unfold initial_arcs, arc. rewrite list_elem_of_bind. split.
  - intros (x' & Hy & Hx). apply list_elem_of_bind in Hy as (y' & Hxy & Hy).
    apply list_elem_of_singleton in Hxy. simplify_eq.
    by rewrite !elem_of_elements in *.
  - intros [Hx Hy]. exists x. rewrite elem_of_elements. split; [|done].
    apply list_elem_of_bind. exists y. rewrite elem_of_elements.
    split; [by apply list_elem_of_singleton|done].
Qed.

Lemma neighbors_sym x y :
  overlaps_symmetric cw → x ∈ variables cw → y ∈ neighbors cw x → x ∈ neighbors cw y.
Proof.
  intros Hsym Hx (Hy & Hne & [[i j] Hov])%elem_of_neighbors.
  apply elem_of_neighbors. split; [done|]. split; [done|].
  rewrite (Hsym _ _ _ _ Hov). eauto.
Qed.

Lemma agree_at_sym i j w w' : agree_at i j w w' → agree_at j i w' w.
Proof. intros (c & ? & ?). exists c. done. Qed.

Lemma supported_domains_eq s s' y i j w :
  domains s' !! y = domains s !! y → supported s y i j w → supported s' y i j w.
Proof.
  intros Heq (dy & w' & ? & ? & ?). exists dy, w'. rewrite Heq. done.
Qed.

(** One revision keeps the loop invariant of AC-3: an arc that is not
    waiting in the queue is consistent. *)
Lemma revise_keeps_invariant x y q s b s' :
  overlaps_symmetric cw →
  (∀ a c, arc cw a c → (a, c) ∈ (x, y) :: q ∨ arc_consistent cw s a c) →
  revise cw x y s = (Val b, s') →
  ∀ a c, arc cw a c →
    (a, c) ∈ (if b then q ++ ((λ z, (z, x)) <$> elements (neighbors cw x ∖ {[y]})) else q)
    ∨ arc_consistent cw s' a c.
Proof.
  intros Hsym Hinv Hrev a c Hac.
  apply revise_inv in Hrev as (_ & _ & Hrev).
  destruct (overlaps cw x y) as [[i j]|] eqn:Hov.
  2:{ destruct Hrev as [-> Hd].
      destruct (Hinv a c Hac) as [[Heq|Hq]%elem_of_cons|Hc].
      - simplify_eq. right. intros i j dx w Hov'. congruence.
      - by left.
      - right. intros i j dx w Ho Hdx Hw. rewrite Hd in Hdx.
        eapply supported_domains_eq; [by rewrite Hd|]. by eapply Hc. }
  destruct Hrev as (dx & dx' & Hdx & Hd & Hin & Hb).
  assert (∀ v, v ≠ x → domains s' !! v = domains s !! v) as Hother.
  { intros v Hv. rewrite Hd. by apply lookup_insert_ne. }
  assert (domains s' !! x = Some dx') as Hdx'.
  { rewrite Hd. apply lookup_insert_eq. }
  (* the revised arc itself *)
  assert (arc cw x y → arc_consistent cw s' x y) as Hxy.
  { intros [_ (_ & Hne & _)%elem_of_neighbors].
    intros i' j' d w Hov' Hd' Hw. simplify_eq.
    apply Hin in Hw as [_ Hw]. eapply supported_domains_eq; [|done]. by apply Hother. }
  (* an arc that was consistent before *)
  assert (arc_consistent cw s a c → (a, c) ≠ (x, y) →
          (c = x → a = y) → arc_consistent cw s' a c) as Hold.
  { intros Hc Hne Hcx i' j' d w Hov' Hd' Hw.
    destruct (decide (c = x)) as [->|Hcne].
    - (* the arc (y, x): its supports in Domain[x] survive the revision *)
      rewrite (Hcx eq_refl) in *.
      destruct Hac as [_ (_ & Hyx & _)%elem_of_neighbors].
      rewrite Hother in Hd' by done.
      destruct (Hc _ _ _ _ Hov' Hd' Hw) as (d0 & w0 & Hd0 & Hw0 & Hag).
      simplify_eq. exists dx', w0. split; [done|]. split; [|done].
      apply Hin. split; [done|].
      apply Hsym in Hov'. simplify_eq.
      exists d, w. split; [done|]. split; [done|]. by apply agree_at_sym.
    - destruct (decide (a = x)) as [->|Hane].
      + simplify_eq. apply Hin in Hw as [Hw _].
        eapply supported_domains_eq; [by apply Hother|]. by eapply Hc.
      + rewrite Hother in Hd' by done.
        eapply supported_domains_eq; [by apply Hother|]. by eapply Hc. }
  destruct b.
  - destruct (Hinv a c Hac) as [[Heq|Hq]%elem_of_cons|Hc].
    + simplify_eq. right. by apply Hxy.
    + left. apply elem_of_app. by left.
    + destruct (decide ((a, c) = (x, y))) as [Heq|Hne].
      { simplify_eq. right. by apply Hxy. }
      destruct (decide (c = x ∧ a ≠ y)) as [[-> Hay]|Hn].
      * left. apply elem_of_app. right. apply list_elem_of_fmap.
        exists a. split; [done|]. apply elem_of_elements, elem_of_difference.
        split; [|by rewrite elem_of_singleton].
        destruct Hac as [Ha Hx]. apply neighbors_sym; [done| |done].
        apply elem_of_neighbors in Hx. tauto.
      * right. apply Hold; [done..|]. intros ->.
        destruct (decide (a = y)); [done|]. destruct Hn. done.
  - assert (dx' = dx) as ->.
    { apply set_eq. intros w. rewrite Hin. split; [tauto|]. intros Hw. split; [done|].
      destruct (decide (supported s y i j w)) as [|Hn]; [done|].
      assert (false = true) by (apply Hb; eauto). done. }
    assert (domains s' = domains s) as Hsame.
    { rewrite Hd. by apply insert_id. }
    destruct (Hinv a c Hac) as [[Heq|Hq]%elem_of_cons|Hc].
    + simplify_eq. right. by apply Hxy.
    + by left.
    + right. intros i' j' d w Ho Hd' Hw. rewrite Hsame in Hd'.
      eapply supported_domains_eq; [by rewrite Hsame|]. by eapply Hc.
Qed.

Lemma ac3_loop_arc_consistent n q s s' :
  overlaps_symmetric cw →
  (∀ a c, arc cw a c → (a, c) ∈ q ∨ arc_consistent cw s a c) →
  ac3_loop cw n q s = (Val true, s') →
  ∀ a c, arc cw a c → arc_consistent cw s' a c.
Proof.
  intros Hsym. revert q s. induction n as [|n IH]; intros q s Hinv; simpl; [done|].
  destruct q as [|[x y] q].
  - unfold ret. intros [= <-] a c Hac.
    destruct (Hinv a c Hac) as [Hq|?]; [|done]. by apply not_elem_of_nil in Hq.
  - intros H. apply bind_inv in H as [(b & s1 & Hr & H)|(e & _ & ?)]; [|done].
    pose proof (revise_keeps_invariant _ _ _ _ _ _ Hsym Hinv Hr) as Hinv'.
    destruct b.
    + apply bind_inv in H as [(dx & s2 & Hg & H)|(e & _ & ?)]; [|done].
      apply get_domain_inv in Hg as [-> _].
      case_bool_decide; [done|]. by eapply IH.
    + by eapply IH.
Qed.

(** On success, AC-3 started on all arcs leaves every arc consistent. *)
Lemma ac3_arc_consistent s s' :
  overlaps_symmetric cw →
  ac3 cw None s = (Val true, s') →
  ∀ x y, arc cw x y → arc_consistent cw s' x y.
Proof.
  intros Hsym H. eapply ac3_loop_arc_consistent; [done| |exact H].
  intros a c Hac. left. by apply elem_of_initial_arcs.
Qed.

End arc_consistency.

(** ** Failure, fixed point and termination of AC-3 *)

Lemma node_consistent_shrinks s s' :
  shrinks (domains s) (domains s') → node_consistent s → node_consistent s'.
Proof.
  intros Hsh Hnc v d' w Hd' Hw.
  destruct (shrinks_lookup _ _ _ _ Hsh Hd') as (d & Hd & Hsub & _).
  eapply Hnc; [done|]. by apply Hsub.
Qed.

Lemma total_size_insert ds x d d' :
  ds !! x = Some d →
  total_size (<[x := d']> ds) + size d = total_size ds + size d'.
Proof.
  intros Hx. unfold total_size.
  assert (∀ m : gmap Var (gset string), ∀ e, m !! x = None →
    map_fold (λ _ d n, size d + n) 0 (<[x := e]> m) =
    size e + map_fold (λ _ d n, size d + n) 0 m) as Hins.
  { intros m e Hm. apply (map_fold_insert_L (λ _ (d : gset string) n, size d + n)); [|done].
    intros. lia. }
  rewrite <- (insert_delete_eq ds x d') at 1.
  rewrite <- (insert_delete_id ds x d Hx) at 2.
  rewrite !Hins by apply lookup_delete_eq. lia.
Qed.

(** The exceptions [revise] can raise. *)
Lemma any_agree_exn i j w ys e : any_agree i j w ys = Exn e → e = IndexError.
Proof.
  induction ys as [|u us IH]; simpl; [done|].
  unfold char_at.
  destruct (String.get i w); simpl; [|by intros [= <-]].
  destruct (String.get j u); simpl; [|by intros [= <-]].
  case_bool_decide; [done|]. exact IH.
Qed.

Lemma revise_loop_exn y i j xs rem rev s e s' :
  revise_loop y i j xs rem rev s = (Exn e, s') → e = IndexError ∨ e = KeyError.
Proof.
  revert rem rev s. induction xs as [|w ws IH]; intros rem rev s; simpl; [done|].
  intros H. apply bind_inv in H as [(dy & s1 & Hg & H)|(e' & Hg & [= <-])].
  2:{ apply get_domain_inv in Hg as [_ [(? & _ & ?)|[_ [= <-]]]]; [done|by right]. }
  apply bind_inv in H as [(c & s2 & Ha & H)|(e' & Ha & [= <-])].
  2:{ unfold lift in Ha. injection Ha as Ha _. left. by eapply any_agree_exn. }
  destruct c; by eapply IH.
Qed.

Lemma revise_exn cw x y s e s' :
  revise cw x y s = (Exn e, s') → e = IndexError ∨ e = KeyError.
Proof.
  unfold revise. destruct (overlaps cw x y) as [[i j]|]; [|done].
  intros H. apply bind_inv in H as [(dx & s1 & Hg & H)|(e' & Hg & [= <-])].
  2:{ apply get_domain_inv in Hg as [_ [(? & _ & ?)|[_ [= <-]]]]; [done|by right]. }
  apply bind_inv in H as [([rem rev] & s2 & Hl & H)|(e' & Hl & [= <-])].
  2:{ by eapply revise_loop_exn. }
  apply bind_inv in H as [(d & s3 & Hg' & H)|(e' & Hg' & [= <-])].
  2:{ apply get_domain_inv in Hg' as [_ [(? & _ & ?)|[_ [= <-]]]]; [done|by right]. }
  done.
Qed.

Section ac3_results.

Context (cw : Crossword).

Lemma revise_false_domains x y s s' :
  revise cw x y s = (Val false, s') → domains s' = domains s.
Proof.
  intros H. apply revise_inv in H as (_ & _ & H).
  destruct (overlaps cw x y) as [[i j]|]; [|by destruct H].
  destruct H as (dx & dx' & Hdx & -> & Hin & Hb).
  apply insert_id. rewrite Hdx. f_equal.
  apply set_eq. intros w. rewrite Hin. split; [|tauto]. intros Hw. split; [done|].
  destruct (decide (supported s y i j w)) as [|Hn]; [done|].
  assert (false = true) by (apply Hb; eauto). done.
Qed.

Lemma revise_true_domains x y s s' :
  revise cw x y s = (Val true, s') →
  ∃ dx dx', domains s !! x = Some dx ∧ domains s' = <[x := dx']> (domains s) ∧
            dx' ⊆ dx ∧ size dx' < size dx.
Proof.
  intros H. apply revise_inv in H as (_ & _ & H).
  destruct (overlaps cw x y) as [[i j]|]; [|by destruct H].
  destruct H as (dx & dx' & Hdx & -> & Hin & Hb).
  exists dx, dx'. split; [done|]. split; [done|].
  assert (dx' ⊆ dx) as Hsub by (intros w Hw; by apply Hin in Hw as [? _]).
  split; [done|].
  destruct Hb as [Hb _]. destruct (Hb eq_refl) as (w & Hw & Hn).
  apply subset_size. split; [done|]. intros Hsup.
  apply Hsup in Hw. apply Hin in Hw as [_ ?]. done.
Qed.

(** If propagation empties a domain, [ac3] returns [False]. *)
Lemma ac3_loop_emptied n q s r s' v d :
  ac3_loop cw n q s = (r, s') →
  domains s !! v = Some d → d ≠ ∅ → domains s' !! v = Some ∅ →
  r = Val false.
Proof.
  revert q s d. induction n as [|n IH]; intros q s d; simpl.
  - unfold raise. intros [= <- <-] Hd Hne Hd'. congruence.
  - destruct q as [|[x y] q].
    + unfold ret. intros [= <- <-] Hd Hne Hd'. congruence.
    + intros H Hd Hne Hd'.
      apply bind_inv in H as [(b & s1 & Hr & H)|(e & Hr & ->)].
      2:{ apply revise_inv in Hr. subst. congruence. }
      destruct b.
      * destruct (revise_true_domains _ _ _ _ Hr) as (dx & dx' & Hdx & Hs1 & _ & _).
        erewrite bind_val in H by (apply get_domain_some; rewrite Hs1; apply lookup_insert_eq).
        case_bool_decide as He.
        -- unfold ret in H. by injection H as <- <-.
        -- destruct (decide (x = v)) as [->|Hxv].
           ++ eapply (IH _ _ dx'); [done| |done..].
              rewrite Hs1. apply lookup_insert_eq.
           ++ eapply (IH _ _ d); [done| |done..].
              rewrite Hs1. by rewrite lookup_insert_ne.
      * eapply (IH _ _ d); [done| |done..].
        by rewrite (revise_false_domains _ _ _ _ Hr).
Qed.

(** The iteration bound of [ac3] is never reached. *)
Lemma ac3_loop_fuel n q s r s' :
  length q + total_size (domains s) * S (size (variables cw)) < n →
  ac3_loop cw n q s = (r, s') → r ≠ Exn OutOfFuel.
Proof.
  revert q s. induction n as [|n IH]; intros q s Hn; [lia|]. simpl.
  destruct q as [|[x y] q].
  - unfold ret. by intros [= <- <-].
  - intros H. apply bind_inv in H as [(b & s1 & Hr & H)|(e & Hr & ->)].
    2:{ apply revise_exn in Hr. intros [= ->]. by destruct Hr. }
    simpl in Hn. destruct b.
    + destruct (revise_true_domains _ _ _ _ Hr) as (dx & dx' & Hdx & Hs1 & _ & Hlt).
      erewrite bind_val in H by (apply get_domain_some; rewrite Hs1; apply lookup_insert_eq).
      case_bool_decide; [unfold ret in H; by injection H as <- <-|].
      eapply IH; [|exact H].
      pose proof (total_size_insert (domains s) x dx dx' Hdx) as Hts.
      rewrite <- Hs1 in Hts.
      rewrite length_app, length_fmap.
      assert (length (elements (neighbors cw x ∖ {[y]})) ≤ size (variables cw)) as Hk.
      { change (size (neighbors cw x ∖ {[y]}) ≤ size (variables cw)).
        apply subseteq_size. intros z [Hz _]%elem_of_difference.
        apply elem_of_filter in Hz. tauto. }
      nia.
    + eapply IH; [|exact H].
      rewrite (revise_false_domains _ _ _ _ Hr). lia.
Qed.

Lemma ac3_never_out_of_fuel arcs s r s' :
  ac3 cw arcs s = (r, s') → r ≠ Exn OutOfFuel.
Proof.
  unfold ac3. apply ac3_loop_fuel. unfold ac3_fuel. lia.
Qed.

End ac3_results.

Section fixed_point.

Context (cw : Crossword).

Lemma revise_total x y s dx dy :
  domains s !! x = Some dx → domains s !! y = Some dy →
  (∀ i j, overlaps cw x y = Some (i, j) →
     (∀ w, w ∈ dx → i < String.length w) ∧ (∀ w, w ∈ dy → j < String.length w)) →
  ∃ b s', revise cw x y s = (Val b, s').
Proof.
  intros Hdx Hdy Hlen. unfold revise.
  destruct (overlaps cw x y) as [[i j]|]; [|cbv [bind emit ret]; simpl; eauto].
  destruct (Hlen i j eq_refl) as [Hi Hj].
  destruct (revise_loop_total y i j (elements dx) ∅ false s dy) as (rem & rev & Hl);
    [done| |done|].
  { intros w Hw. apply Hi. by apply elem_of_elements. }
  eexists _, _.
  erewrite bind_val by by apply get_domain_some.
  erewrite bind_val by exact Hl. cbv beta iota.
  erewrite bind_val by by apply get_domain_some.
  cbv [bind set_domain emit ret]. simpl. reflexivity.
Qed.

(** A successful run has read the domain of the source of every arc. *)
Lemma ac3_loop_domains_present n q s s' x y :
  ac3_loop cw n q s = (Val true, s') →
  (x, y) ∈ q → is_Some (overlaps cw x y) → is_Some (domains s !! x).
Proof.
  revert q s. induction n as [|n IH]; intros q s; simpl; [done|].
  destruct q as [|[x0 y0] q]; [by intros _ ?%not_elem_of_nil|].
  intros H Hin Hov.
  apply bind_inv in H as [(b & s1 & Hr & H)|(e & _ & ?)]; [|done].
  apply elem_of_cons in Hin as [Heq|Hin].
  - simplify_eq. apply revise_inv in Hr as (_ & _ & Hr).
    destruct Hov as [[i j] Hov]. rewrite Hov in Hr.
    destruct Hr as (dx & _ & Hdx & _). eauto.
  - assert (is_Some (domains s1 !! x)) as [d1 Hd1].
    { destruct b.
      - apply bind_inv in H as [(dx & s2 & Hg & H)|(e & _ & ?)]; [|done].
        apply get_domain_inv in Hg as [-> _].
        case_bool_decide; [done|].
        eapply IH; [exact H| |done]. apply elem_of_app. by left.
      - by eapply IH. }
    apply revise_propagates in Hr as (_ & Hsh & _).
    destruct (shrinks_lookup _ _ _ _ Hsh Hd1) as (d & Hd & _). eauto.
Qed.

(** On a store whose arcs are consistent in both directions, the loop
    revises nothing; the supports show that no index is out of range. *)
Lemma ac3_loop_fixed n q s :
  overlaps_symmetric cw →
  (∀ x y, (x, y) ∈ q →
     arc_consistent cw s x y ∧ arc_consistent cw s y x ∧
     is_Some (domains s !! x) ∧ is_Some (domains s !! y)) →
  length q < n →
  ∃ s', ac3_loop cw n q s = (Val true, s') ∧
        domains s' = domains s ∧ heap s' = heap s ∧
        log s' = log s ++ ((λ a, EvRevise a.1 a.2 false) <$> q).
Proof.
  intros Hsym. revert q s. induction n as [|n IH]; intros q s Hq Hn; [lia|].
  simpl. destruct q as [|[x y] q].
  - exists s. unfold ret. by rewrite app_nil_r.
  - destruct (Hq x y) as (Hc & Hc' & [dx Hdx] & [dy Hdy]); [by left|].
    destruct (revise_total x y s dx dy Hdx Hdy) as (b & s1 & Hr).
    { intros i j Hov. split.
      - intros w Hw. destruct (Hc i j dx w Hov Hdx Hw) as (_ & _ & _ & _ & c & Hg & _).
        by eapply string_get_some_lt.
      - intros w Hw.
        destruct (Hc' j i dy w (Hsym _ _ _ _ Hov) Hdy Hw) as (_ & _ & _ & _ & c & Hg & _).
        by eapply string_get_some_lt. }
    assert (b = false) as ->.
    { pose proof Hr as Hr'. apply revise_inv in Hr' as (_ & _ & Hr').
      destruct (overlaps cw x y) as [[i j]|] eqn:Hov; [|by destruct Hr'].
      destruct Hr' as (dx0 & _ & Hdx0 & _ & _ & Hb).
      destruct b; [|done]. destruct Hb as [Hb _].
      destruct (Hb eq_refl) as (w & Hw & Hns).
      destruct Hns. by eapply Hc. }
    erewrite bind_val by exact Hr.
    pose proof (revise_false_domains _ _ _ _ _ Hr) as Hsame.
    apply revise_inv in Hr as (Hh & Hl & _).
    assert (∀ a c, arc_consistent cw s a c → arc_consistent cw s1 a c) as Hkeep.
    { intros a c Hac i j d w Hov Hd Hw. rewrite Hsame in Hd.
      eapply supported_domains_eq; [by rewrite Hsame|]. by eapply Hac. }
    destruct (IH q s1) as (s' & Hrun & Hd' & Hh' & Hl').
    { intros a c Hac. destruct (Hq a c) as (H1 & H2 & Ha & Hcc); [by right|].
      rewrite Hsame. split; [by apply Hkeep|]. split; [by apply Hkeep|]. done. }
    { simpl in Hn. lia. }
    exists s'. split; [done|]. split; [congruence|]. split; [congruence|].
    rewrite Hl', Hl. simpl. by rewrite <- app_assoc.
Qed.

(** Running [ac3] again after a success revises nothing. *)
Lemma ac3_fixed s s1 :
  overlaps_symmetric cw →
  ac3 cw None s = (Val true, s1) →
  ∃ s2, ac3 cw None s1 = (Val true, s2) ∧
        domains s2 = domains s1 ∧ heap s2 = heap s1 ∧
        log s2 = log s1 ++ ((λ a, EvRevise a.1 a.2 false) <$> initial_arcs cw).
Proof.
  intros Hsym Hrun.
  pose proof (ac3_propagates _ _ _ _ _ Hrun) as (_ & Hsh & _).
  assert (∀ x y, arc cw x y → is_Some (domains s1 !! x)) as Hpres.
  { intros x y Hxy.
    assert (is_Some (domains s !! x)) as [d Hd].
    { eapply ac3_loop_domains_present; [exact Hrun|by apply elem_of_initial_arcs|].
      destruct Hxy as [_ Hy]. apply elem_of_neighbors in Hy. tauto. }
    specialize (Hsh x). rewrite Hd in Hsh. inversion Hsh. eauto. }
  assert (∀ x y, arc cw x y → arc cw y x) as Hflip.
  { intros x y [Hx Hy]. split.
    - apply elem_of_neighbors in Hy. tauto.
    - by apply neighbors_sym. }
  unfold ac3 at 1. apply ac3_loop_fixed.
  - done.
  - intros x y Hxy%elem_of_initial_arcs.
    split; [by eapply ac3_arc_consistent|].
    split; [eapply ac3_arc_consistent; [done..|by apply Hflip]|].
    split; [by eapply Hpres|]. apply (Hpres y x). by apply Hflip.
  - unfold ac3_fuel. lia.
Qed.

End fixed_point.

(** ** The consistency check *)

Section consistency.

Context (cw : Crossword).

Lemma Consistent_weaken a b : a ⊆ b → Consistent cw b → Consistent cw a.
Proof.
  intros Hsub (Hlen & Hinj & Hov). split; [|split].
  - intros v w Hv. eapply Hlen, lookup_weaken; eauto.
  - intros v1 v2 w H1 H2. eapply Hinj; eapply lookup_weaken; eauto.
  - intros v1 v2 w1 w2 i j H1 H2. eapply Hov; eapply lookup_weaken; eauto.
Qed.

Lemma Consistent_empty : Consistent cw ∅.
Proof. split; [|split]; intros *; by rewrite lookup_empty. Qed.

Lemma check_values_spec items values :
  check_values items values = true ↔
  (∀ v w, (v, w) ∈ items → String.length w = var_length v) ∧
  NoDup (items.*2) ∧ (∀ w, w ∈ items.*2 → w ∉ values).
Proof.
  revert values. induction items as [|[v w] items IH]; intros values; simpl.
  - split; [|done]. intros _. split; [by intros ?? ?%not_elem_of_nil|].
    split; [constructor|by intros ? ?%not_elem_of_nil].
  - case_bool_decide as Hlen; simpl.
    { split; [done|]. intros (Hl & _). destruct Hlen. symmetry. apply Hl. by left. }
    case_bool_decide as Hin; simpl.
    { split; [done|]. intros (_ & _ & Hn). destruct (Hn w); [by left|done]. }
    rewrite IH. split.
    + intros (Hl & Hnd & Hn). split; [|split].
      * intros v' w' [[= -> ->]|?]%elem_of_cons; [done|by apply Hl].
      * constructor; [|done]. intros Hw. apply (Hn w Hw).
        apply elem_of_union. left. by apply elem_of_singleton.
      * intros w' [->|Hw']%elem_of_cons; [done|]. intros ?. apply (Hn w' Hw').
        apply elem_of_union. by right.
    + intros (Hl & Hnd & Hn). apply NoDup_cons in Hnd as [Hw Hnd]. split; [|split].
      * intros v' w' ?. apply Hl. by right.
      * done.
      * intros w' Hw' [->%elem_of_singleton|?]%elem_of_union; [done|].
        apply (Hn w'); [by right|done].
Qed.

Lemma NoDup_snd_inj (items : list (Var * string)) v1 v2 w :
  NoDup (items.*2) → (v1, w) ∈ items → (v2, w) ∈ items → v1 = v2.
Proof.
  induction items as [|[v u] items IH]; simpl; [by intros _ ?%not_elem_of_nil|].
  intros [Hu Hnd]%NoDup_cons H1 H2.
  apply elem_of_cons in H1 as [[= -> ->]|H1]; apply elem_of_cons in H2 as [H2|H2].
  - by injection H2.
  - destruct Hu. apply list_elem_of_fmap. by exists (v2, u).
  - injection H2 as -> ->. destruct Hu. apply list_elem_of_fmap. by exists (v1, u).
  - by apply IH.
Qed.

Lemma check_neighbors_val a var1 word1 ns b :
  check_neighbors cw a var1 word1 ns = Val b →
  (b = true ↔ neighbors_agree cw a var1 word1 ns).
Proof.
  revert b. induction ns as [|var2 ns IH]; intros b; simpl.
  - intros [= <-]. split; [|done]. by intros _ ???? ?%not_elem_of_nil.
  - assert (∀ P : Prop, (∀ word2 i j, a !! var2 = Some word2 →
                overlaps cw var1 var2 = Some (i, j) → agree_at i j word1 word2) →
              (P ↔ neighbors_agree cw a var1 word1 ns) →
              (P ↔ neighbors_agree cw a var1 word1 (var2 :: ns))) as Hskip.
    { intros P Hhead ->. split.
      - intros Hns v w i j [->|?]%elem_of_cons; [by apply Hhead|by apply Hns].
      - intros Hns v w i j ?. apply Hns. by right. }
    destruct (a !! var2) as [word2|] eqn:Ha.
    2:{ intros H. apply Hskip; [done|by apply IH]. }
    destruct (overlaps cw var1 var2) as [[i j]|] eqn:Hov.
    2:{ intros H. apply Hskip; [done|by apply IH]. }
    destruct (char_at word1 i) as [c1|] eqn:E1; simpl; [|done].
    destruct (char_at word2 j) as [c2|] eqn:E2; simpl; [|done].
    apply char_at_val in E1, E2.
    case_bool_decide as Hc.
    + intros [= <-]. split; [done|]. intros Hns.
      destruct (Hns var2 word2 i j) as (c & ? & ?); [by left|done..|]. congruence.
    + intros H. apply Hskip; [|by apply IH].
      intros w i' j' [= <-] [= <- <-]. exists c1. by subst.
Qed.

Lemma check_neighbors_total a var1 word1 ns :
  (∀ var2 word2 i j, var2 ∈ ns → a !! var2 = Some word2 →
     overlaps cw var1 var2 = Some (i, j) →
     i < String.length word1 ∧ j < String.length word2) →
  ∃ b, check_neighbors cw a var1 word1 ns = Val b.
Proof.
  induction ns as [|var2 ns IH]; intros Hr; simpl; [eauto|].
  assert (∃ b, check_neighbors cw a var1 word1 ns = Val b) as Hrest.
  { apply IH. intros v w i j ?. apply Hr. by right. }
  destruct (a !! var2) as [word2|] eqn:Ha; [|done].
  destruct (overlaps cw var1 var2) as [[i j]|] eqn:Hov; [|done].
  destruct (Hr var2 word2 i j) as [Hi Hj]; [by left|done..|].
  destruct (char_at_lt _ _ Hi) as [c1 ->]. destruct (char_at_lt _ _ Hj) as [c2 ->].
  simpl. case_bool_decide; eauto.
Qed.

Lemma check_overlaps_val a items b :
  check_overlaps cw a items = Val b →
  (b = true ↔ ∀ var1 word1, (var1, word1) ∈ items →
                neighbors_agree cw a var1 word1 (elements (neighbors cw var1))).
Proof.
  revert b. induction items as [|[var1 word1] items IH]; intros b; simpl.
  - intros [= <-]. split; [|done]. by intros _ ?? ?%not_elem_of_nil.
  - destruct (check_neighbors cw a var1 word1 _) as [ok|] eqn:E; simpl; [|done].
    apply check_neighbors_val in E. destruct ok.
    + intros H. rewrite (IH _ H). split.
      * intros Hi v w [[= -> ->]|?]%elem_of_cons; [by apply E|by apply Hi].
      * intros Hi v w ?. apply Hi. by right.
    + intros [= <-]. split; [done|]. intros Hi.
      apply E. apply Hi. by left.
Qed.

Lemma check_overlaps_total a items :
  (∀ var1 word1 var2 word2 i j, (var1, word1) ∈ items → a !! var2 = Some word2 →
     overlaps cw var1 var2 = Some (i, j) →
     i < String.length word1 ∧ j < String.length word2) →
  ∃ b, check_overlaps cw a items = Val b.
Proof.
  induction items as [|[var1 word1] items IH]; intros Hr; simpl; [eauto|].
  destruct (check_neighbors_total a var1 word1 (elements (neighbors cw var1))) as [ok ->].
  { intros v w i j _. apply Hr. by left. }
  simpl. destruct ok; [|eauto].
  apply IH. intros v1 w1 v2 w2 i j ?. apply Hr. by right.
Qed.

(** Whenever the check returns, it decides [Consistent]. *)
Lemma consistent_dict_val a b :
  consistent_dict cw a = Val b → (b = true ↔ Consistent cw a).
Proof.
  unfold consistent_dict.
  destruct (check_values (map_to_list a) ∅) eqn:Hcv.
  - apply check_values_spec in Hcv as (Hlen & Hnd & _).
    intros H. rewrite (check_overlaps_val _ _ _ H). split.
    + intros Hov. split; [|split].
      * intros v w Hv. apply Hlen. by apply elem_of_map_to_list.
      * intros v1 v2 w H1 H2. eapply NoDup_snd_inj; [done|by apply elem_of_map_to_list..].
      * intros v1 v2 w1 w2 i j H1 H2 Hn Ho.
        eapply (Hov v1 w1); [by apply elem_of_map_to_list| |done..].
        by apply elem_of_elements.
    + intros (_ & _ & Hov) v1 w1 Hin v2 w2 i j Hn H2 Ho.
      apply elem_of_map_to_list in Hin. apply elem_of_elements in Hn.
      by eapply Hov.
  - intros [= <-]. split; [done|]. intros (Hlen & Hinj & _).
    assert (check_values (map_to_list a) ∅ = true); [|congruence].
    apply check_values_spec. split; [|split].
    + intros v w Hv. apply Hlen. by apply elem_of_map_to_list.
    + apply NoDup_fmap_2_strong; [|apply NoDup_map_to_list].
      intros [v1 w1] [v2 w2] H1%elem_of_map_to_list H2%elem_of_map_to_list Heq.
      simpl in Heq. subst. f_equal. by eapply Hinj.
    + intros w _. apply not_elem_of_empty.
Qed.

(** With positions inside the slots it always returns. *)
Lemma consistent_dict_total a :
  overlaps_in_range cw → ∃ b, consistent_dict cw a = Val b.
Proof.
  intros Hrange. unfold consistent_dict.
  destruct (check_values (map_to_list a) ∅) eqn:Hcv; [|eauto].
  apply check_values_spec in Hcv as (Hlen & _ & _).
  apply check_overlaps_total. intros v1 w1 v2 w2 i j H1 H2 Hov.
  destruct (Hrange _ _ _ _ Hov) as [Hi Hj].
  rewrite (Hlen _ _ H1). apply elem_of_map_to_list in H2. by rewrite (Hlen _ _ H2).
Qed.

Lemma consistent_dict_true a :
  overlaps_in_range cw → Consistent cw a → consistent_dict cw a = Val true.
Proof.
  intros Hrange Hc. destruct (consistent_dict_total a Hrange) as [b Hb].
  rewrite Hb. f_equal. by apply (consistent_dict_val _ _ Hb).
Qed.

Lemma consistent_dict_false a :
  overlaps_in_range cw → ¬ Consistent cw a → consistent_dict cw a = Val false.
Proof.
  intros Hrange Hc. destruct (consistent_dict_total a Hrange) as [b Hb].
  rewrite Hb. destruct b; [|done]. destruct Hc. by apply (consistent_dict_val _ _ Hb).
Qed.

End consistency.

(** ** Methods that only read the solver *)

Lemma readonly_ret {A} (a : A) : readonly (ret a).
Proof. by intros s r s' [= _ <-]. Qed.

Lemma readonly_raise {A} e : readonly (@raise A e).
Proof. by intros s r s' [= _ <-]. Qed.

Lemma readonly_lift {A} (r : res A) : readonly (lift r).
Proof. by intros s r' s' [= _ <-]. Qed.

Lemma readonly_get_domain v : readonly (get_domain v).
Proof. intros s r s' H. by apply get_domain_inv in H as [-> _]. Qed.

Lemma readonly_read_dict l : readonly (read_dict l).
Proof. intros s r s' H. by apply read_dict_inv in H as [-> _]. Qed.

Lemma readonly_bind {A B} (m : M A) (k : A → M B) :
  readonly m → (∀ a, readonly (k a)) → readonly (bind m k).
Proof.
  intros Hm Hk s r s' H. apply bind_inv in H as [(a & s1 & H1 & H2)|(e & H1 & _)].
  - apply Hm in H1 as ->. by apply Hk in H2.
  - by apply Hm in H1.
Qed.

Global Hint Resolve readonly_ret readonly_raise readonly_lift readonly_get_domain
  readonly_read_dict : readonly.

Lemma insert_by_perm {A} (key : A → nat) x l : insert_by key x l ≡ₚ x :: l.
Proof.
  induction l as [|y l IH]; simpl; [done|].
  case_bool_decide; [done|]. rewrite IH. apply Permutation_swap.
Qed.

Lemma sorted_by_perm {A} (key : A → nat) l : sorted_by key l ≡ₚ l.
Proof.
  induction l as [|x l IH]; simpl; [done|].
  rewrite insert_by_perm. by rewrite IH.
Qed.

Section readers.

Context (cw : Crossword).

Lemma readonly_assignment_complete l : readonly (assignment_complete cw l).
Proof. apply readonly_bind; auto with readonly. Qed.

Lemma readonly_consistent l : readonly (consistent cw l).
Proof. apply readonly_bind; auto with readonly. Qed.

Lemma readonly_mrv_key var : readonly (mrv_key cw var).
Proof. apply readonly_bind; auto with readonly. Qed.

Lemma readonly_min_by best k l : readonly (min_by cw best k l).
Proof.
  revert best k. induction l as [|v l IH]; intros best k; simpl; [auto with readonly|].
  apply readonly_bind; [apply readonly_mrv_key|]. intros k'. destruct (key_lt k' k); apply IH.
Qed.

Lemma readonly_select_unassigned_variable l :
  readonly (select_unassigned_variable cw l).
Proof.
  apply readonly_bind; [auto with readonly|]. intros a.
  destruct (unassigned cw a); [auto with readonly|].
  apply readonly_bind; [apply readonly_mrv_key|]. intros k. apply readonly_min_by.
Qed.

Lemma readonly_odv_neighbors var value ns c : readonly (odv_neighbors cw var value ns c).
Proof.
  revert c. induction ns as [|n ns IH]; intros c; simpl; [auto with readonly|].
  destruct (overlaps cw var n) as [[i j]|]; [|apply IH].
  apply readonly_bind; [auto with readonly|]. intros d.
  apply readonly_bind; [auto with readonly|]. intros c'. apply IH.
Qed.

Lemma readonly_odv_values var ns values constraint :
  readonly (odv_values cw var ns values constraint).
Proof.
  revert constraint. induction values as [|v values IH]; intros constraint; simpl;
    [auto with readonly|].
  apply readonly_bind; [apply readonly_odv_neighbors|]. intros c. apply IH.
Qed.

Lemma readonly_order_domain_values var l : readonly (order_domain_values cw var l).
Proof.
  apply readonly_bind; [auto with readonly|]. intros a.
  apply readonly_bind; [auto with readonly|]. intros d.
  apply readonly_bind; [apply readonly_odv_values|]. intros c.
  apply readonly_bind; auto with readonly.
Qed.

Lemma consistent_run l s a :
  heap s !! l = Some a → consistent cw l s = (consistent_dict cw a, s).
Proof.
  intros H. unfold consistent. erewrite bind_val by by apply read_dict_some. done.
Qed.

Lemma assignment_complete_run l s a :
  heap s !! l = Some a →
  assignment_complete cw l s = (Val (bool_decide (dom a = variables cw)), s).
Proof.
  intros H. unfold assignment_complete. erewrite bind_val by by apply read_dict_some. done.
Qed.

(** [select_unassigned_variable] returns a variable of the puzzle that the
    assignment does not bind. *)
Lemma elem_of_unassigned a var :
  var ∈ unassigned cw a ↔ var ∈ variables cw ∧ a !! var = None.
Proof.
  unfold unassigned. rewrite list_elem_of_filter, elem_of_elements, not_elem_of_dom. tauto.
Qed.

Lemma min_by_val best k l s var s' :
  min_by cw best k l s = (Val var, s') → var = best ∨ var ∈ l.
Proof.
  revert best k. induction l as [|v l IH]; intros best k; simpl.
  - intros [= <- _]. by left.
  - intros H. apply bind_inv in H as [(k' & s1 & Hk & H)|(e & _ & ?)]; [|done].
    apply readonly_mrv_key in Hk as ->.
    destruct (key_lt k' k); apply IH in H as [->|?];
      first [by left | right; by left | right; by right].
Qed.

Lemma select_unassigned_variable_val l s a var s' :
  heap s !! l = Some a →
  select_unassigned_variable cw l s = (Val var, s') →
  var ∈ variables cw ∧ a !! var = None.
Proof.
  intros Ha. unfold select_unassigned_variable.
  erewrite bind_val by by apply read_dict_some.
  destruct (unassigned cw a) as [|v l'] eqn:Hun; [done|].
  intros H. apply bind_inv in H as [(k' & s1 & Hk & H)|(e & _ & ?)]; [|done].
  apply readonly_mrv_key in Hk as ->.
  apply elem_of_unassigned. rewrite Hun.
  apply min_by_val in H as [->|?]; [by left|by right].
Qed.

Lemma mrv_key_total var s :
  is_Some (domains s !! var) → ∃ k, mrv_key cw var s = (Val k, s).
Proof.
  intros [d Hd]. unfold mrv_key. erewrite bind_val by by apply get_domain_some.
  unfold ret. eauto.
Qed.

Lemma min_by_total best k l s :
  (∀ v, v ∈ l → is_Some (domains s !! v)) → ∃ var, min_by cw best k l s = (Val var, s).
Proof.
  revert best k. induction l as [|v l IH]; intros best k Hl; simpl; [unfold ret; eauto|].
  destruct (mrv_key_total v s) as [k' Hk]; [apply Hl; by left|].
  erewrite bind_val by exact Hk.
  destruct (key_lt k' k); apply IH; intros ??; apply Hl; by right.
Qed.

Lemma select_unassigned_variable_total l s a :
  heap s !! l = Some a →
  (∀ v, v ∈ variables cw → is_Some (domains s !! v)) →
  dom a ⊆ variables cw → dom a ≠ variables cw →
  ∃ var, select_unassigned_variable cw l s = (Val var, s).
Proof.
  intros Ha Hdom Hsub Hne. unfold select_unassigned_variable.
  erewrite bind_val by by apply read_dict_some.
  destruct (unassigned cw a) as [|v l'] eqn:Hun.
  - destruct Hne. apply set_eq. intros x. split; [apply Hsub|]. intros Hx.
    destruct (decide (x ∈ dom a)) as [|Hn]; [done|].
    assert (x ∈ unassigned cw a) as Hin.
    { apply elem_of_unassigned. by rewrite <- not_elem_of_dom. }
    rewrite Hun in Hin. by apply not_elem_of_nil in Hin.
  - assert (∀ x, x ∈ v :: l' → is_Some (domains s !! x)) as Hall.
    { intros x Hx. rewrite <- Hun in Hx. apply elem_of_unassigned in Hx as [? _]. by apply Hdom. }
    destruct (mrv_key_total v s) as [k Hk]; [apply Hall; by left|].
    erewrite bind_val by exact Hk.
    apply min_by_total. intros x ?. apply Hall. by right.
Qed.

(** [order_domain_values] returns the words of the domain, in some order. *)
Lemma order_domain_values_val var l s values s' :
  order_domain_values cw var l s = (Val values, s') →
  ∃ d, domains s !! var = Some d ∧ values ≡ₚ elements d.
Proof.
  unfold order_domain_values. intros H.
  apply bind_inv in H as [(a & s1 & Hr & H)|(e & _ & ?)]; [|done].
  apply readonly_read_dict in Hr as ->.
  apply bind_inv in H as [(d & s1 & Hg & H)|(e & _ & ?)]; [|done].
  apply get_domain_inv in Hg as [-> [(d' & Hd & [= <-])|[_ ?]]]; [|done].
  apply bind_inv in H as [(c & s1 & Ho & H)|(e & _ & ?)]; [|done].
  apply readonly_odv_values in Ho as ->.
  rewrite (bind_val _ _ _ _ _ (get_domain_some _ _ _ Hd)) in H.
  unfold ret in H. injection H as <- <-.
  exists d. split; [done|]. apply sorted_by_perm.
Qed.

Lemma count_conflicts_total i j value nvs c :
  i < String.length value → (∀ w, w ∈ nvs → j < String.length w) →
  ∃ c', count_conflicts i j value nvs c = Val c'.
Proof.
  intros Hi. revert c. induction nvs as [|nv nvs IH]; intros c Hj; simpl; [eauto|].
  destruct (char_at_lt _ _ Hi) as [a ->].
  destruct (char_at_lt nv j) as [b ->]; [apply Hj; by left|]. simpl.
  apply IH. intros w ?. apply Hj. by right.
Qed.

Lemma odv_neighbors_total var value ns c s :
  overlaps_in_range cw → node_consistent s →
  String.length value = var_length var →
  (∀ n, n ∈ ns → is_Some (domains s !! n)) →
  ∃ c', odv_neighbors cw var value ns c s = (Val c', s).
Proof.
  intros Hrange Hnc Hlen. revert c.
  induction ns as [|n ns IH]; intros c Hns; simpl; [unfold ret; eauto|].
  assert (∀ n', n' ∈ ns → is_Some (domains s !! n')) as Hns'.
  { intros ??. apply Hns. by right. }
  destruct (overlaps cw var n) as [[i j]|] eqn:Hov; [|by apply IH].
  destruct (Hns n) as [d Hd]; [by left|].
  erewrite bind_val by by apply get_domain_some.
  destruct (Hrange _ _ _ _ Hov) as [Hi Hj].
  destruct (count_conflicts_total i j value (elements d) c) as [c' Hc'].
  { by rewrite Hlen. }
  { intros w Hw%elem_of_elements. by rewrite (Hnc _ _ _ Hd Hw). }
  erewrite bind_val by (unfold lift; by rewrite Hc').
  by apply IH.
Qed.

Lemma odv_values_total var ns values constraint s :
  overlaps_in_range cw → node_consistent s →
  (∀ w, w ∈ values → String.length w = var_length var) →
  (∀ n, n ∈ ns → is_Some (domains s !! n)) →
  ∃ c', odv_values cw var ns values constraint s = (Val c', s).
Proof.
  intros Hrange Hnc. revert constraint.
  induction values as [|v values IH]; intros constraint Hlen Hns; simpl; [unfold ret; eauto|].
  destruct (odv_neighbors_total var v ns (default 0 (constraint !! v)) s) as [c Hc];
    [done..|apply Hlen; by left|done|].
  erewrite bind_val by exact Hc.
  apply IH; [|done]. intros w ?. apply Hlen. by right.
Qed.

Lemma order_domain_values_total var l s a :
  overlaps_in_range cw → node_consistent s →
  (∀ v, v ∈ variables cw → is_Some (domains s !! v)) →
  heap s !! l = Some a → var ∈ variables cw →
  ∃ values, order_domain_values cw var l s = (Val values, s).
Proof.
  intros Hrange Hnc Hdom Ha Hvar. unfold order_domain_values.
  erewrite bind_val by by apply read_dict_some.
  destruct (Hdom var Hvar) as [d Hd].
  erewrite bind_val by by apply get_domain_some.
  destruct (odv_values_total var (elements (neighbors cw var ∖ dom a)) (elements d) ∅ s)
    as [c Hc]; [done..| | |].
  { intros w Hw%elem_of_elements. by eapply Hnc. }
  { intros n [Hn _]%elem_of_elements%elem_of_difference.
    apply Hdom. apply elem_of_neighbors in Hn. tauto. }
  erewrite bind_val by exact Hc.
  erewrite bind_val by by apply get_domain_some.
  unfold ret. eauto.
Qed.

End readers.

(** ** Backtracking search: frame and soundness *)

Lemma searches_refl s : searches s s.
Proof.
  split; [done|]. split; [done|]. exists []. by rewrite app_nil_r.
Qed.

Lemma searches_trans s1 s2 s3 : searches s1 s2 → searches s2 s3 → searches s1 s3.
Proof.
  intros (Hd1 & Hh1 & evs1 & Hl1 & Hf1) (Hd2 & Hh2 & evs2 & Hl2 & Hf2).
  split; [congruence|]. split; [by etrans|].
  exists (evs1 ++ evs2). split.
  - by rewrite Hl2, Hl1, app_assoc.
  - by apply Forall_app.
Qed.

Lemma searches_lookup s s' l a :
  searches s s' → heap s !! l = Some a → heap s' !! l = Some a.
Proof. intros (_ & Hp & _) Hl. by eapply prefix_lookup_Some. Qed.

Lemma searches_alloc s a :
  searches s (MkSolver (domains s) (heap s ++ [a]) (log s)).
Proof.
  split; [done|]. split; [by apply prefix_app_r|].
  exists []. simpl. by rewrite app_nil_r.
Qed.

Lemma searches_emit s l :
  searches s (MkSolver (domains s) (heap s) (log s ++ [EvBacktrack l])).
Proof.
  split; [done|]. split; [done|].
  exists [EvBacktrack l]. split; [done|]. by repeat constructor.
Qed.

(** [new_assignment = assignment.copy(); new_assignment[var] = value] *)
Lemma extend_dict_run {B} l var value (k : loc → M B) s a :
  heap s !! l = Some a →
  (let! n := dict_copy l in let! _ := dict_set n var value in k n) s =
  k (length (heap s)) (MkSolver (domains s) (heap s ++ [<[var := value]> a]) (log s)).
Proof.
  intros Ha. unfold dict_copy.
  erewrite bind_val.
  2:{ erewrite bind_val by by apply read_dict_some. reflexivity. }
  erewrite bind_val; [reflexivity|].
  unfold dict_set. simpl. rewrite list_lookup_middle by done.
  do 2 f_equal. rewrite insert_app_r_alt by done.
  by rewrite Nat.sub_diag.
Qed.

Lemma extend_dict_invalid {B} l var value (k : loc → M B) s :
  heap s !! l = None →
  (let! n := dict_copy l in let! _ := dict_set n var value in k n) s = (Exn InvalidRef, s).
Proof.
  intros Ha. unfold dict_copy. erewrite bind_exn; [done|].
  erewrite bind_exn; [done|]. unfold read_dict. by rewrite Ha.
Qed.

Section search_soundness.

Context (cw : Crossword).

Lemma result_of_step s s1 a var value a' d :
  domains s1 = domains s → a !! var = None →
  domains s !! var = Some d → value ∈ d →
  Consistent cw (<[var := value]> a) →
  result_of cw s1 (<[var := value]> a) a' →
  a ⊆ a' ∧ dom a' = variables cw ∧ from_domains s a a' ∧ Consistent cw a'.
Proof.
  intros Hdom Hvar Hd Hval Hc (Hsub & Hcomplete & Hfrom & Hcons).
  split; [|split; [done|split]].
  - etrans; [|exact Hsub]. by apply insert_subseteq.
  - intros v w Hv Hnone. destruct (decide (v = var)) as [->|Hne].
    + assert (a' !! var = Some value) as Hv'.
      { eapply lookup_weaken; [|exact Hsub]. apply lookup_insert_eq. }
      exists d. split; [done|]. congruence.
    + rewrite <- Hdom. apply Hfrom; [done|]. by rewrite lookup_insert_ne.
  - destruct Hcons as [->|?]; done.
Qed.

Lemma backtrack_loop_sound rec l var values s r s' :
  rec_sound cw rec →
  backtrack_loop cw rec l var values s = (r, s') →
  searches s s' ∧
  ∀ a l', heap s !! l = Some a → a !! var = None →
    (∀ w, w ∈ values → ∃ d, domains s !! var = Some d ∧ w ∈ d) →
    r = Val (Some l') →
    ∃ a', heap s' !! l' = Some a' ∧
          a ⊆ a' ∧ dom a' = variables cw ∧ from_domains s a a' ∧ Consistent cw a'.
Proof.
  intros Hrec. revert s. induction values as [|value values IH]; intros s H.
  { simpl in H. unfold ret in H. injection H as <- <-.
    split; [apply searches_refl|]. intros; discriminate. }
  simpl in H. destruct (heap s !! l) as [a|] eqn:Ha.
  2:{ rewrite extend_dict_invalid in H by done. injection H as <- <-.
      split; [apply searches_refl|]. intros; discriminate. }
  rewrite (extend_dict_run _ _ _ _ _ _ Ha) in H.
  set (a1 := <[var := value]> a) in *.
  set (s1 := MkSolver (domains s) (heap s ++ [a1]) (log s)) in *.
  assert (searches s s1) as Hs1 by apply searches_alloc.
  assert (heap s1 !! length (heap s) = Some a1) as Ha1.
  { simpl. by apply list_lookup_middle. }
  (* what the rest of the loop gives, run from a later state *)
  assert (∀ s2, searches s1 s2 →
            backtrack_loop cw rec l var values s2 = (r, s') →
            searches s s' ∧
            ∀ a0 l', Some a = Some a0 → a0 !! var = None →
              (∀ w, w ∈ value :: values → ∃ d, domains s !! var = Some d ∧ w ∈ d) →
              r = Val (Some l') →
              ∃ a', heap s' !! l' = Some a' ∧
                    a0 ⊆ a' ∧ dom a' = variables cw ∧ from_domains s a0 a' ∧
                    Consistent cw a') as Hrest.
  { intros s2 Hs2 Hloop. apply IH in Hloop as [Hs' Hres].
    assert (searches s s2) as Hss2 by by eapply searches_trans.
    split; [by eapply searches_trans|].
    intros a0 l' [= <-] Hvar Hvals Hr.
    destruct (Hres a l') as (a' & Ha' & Hsub & Hcomp & Hfrom & Hcons); [|done| |done|].
    { by eapply searches_lookup. }
    { intros w Hw. destruct Hss2 as (-> & _). apply Hvals. by right. }
    exists a'. repeat (split; [done|]). split; [|done].
    intros v w Hv Hn. destruct Hss2 as (<- & _). by apply Hfrom. }
  unfold bind at 1 in H. rewrite (consistent_run cw _ _ _ Ha1) in H.
  destruct (consistent_dict cw a1) as [ok|e] eqn:Hok.
  2:{ injection H as <- <-. split; [done|]. intros; discriminate. }
  destruct ok; [|apply (Hrest s1); [apply searches_refl|done]].
  apply (consistent_dict_val cw) in Hok. destruct Hok as [Hok _].
  specialize (Hok eq_refl).
  apply bind_inv in H as [(result & s2 & Hrun & H)|(e & Hrun & ->)].
  2:{ apply Hrec in Hrun as [Hs2 _]. split; [by eapply searches_trans|].
      intros; discriminate. }
  destruct (Hrec _ _ _ _ Hrun) as [Hs2 Hres].
  destruct result as [l1|]; simpl in H.
  2:{ rewrite (bind_val _ _ _ _ _ (eq_refl : ret false s2 = (Val false, s2))) in H.
      by apply (Hrest s2). }
  destruct (Hres a1 l1 Ha1 eq_refl) as (a' & Ha' & Hresult).
  erewrite bind_val in H.
  2:{ erewrite bind_val by by apply read_dict_some. reflexivity. }
  case_bool_decide; [|by apply (Hrest s2)].
  unfold ret in H. injection H as <- <-.
  split; [by eapply searches_trans|].
  intros a0 l' [= <-] Hvar Hvals [= <-].
  exists a'. split; [done|].
  destruct (Hvals value) as (d & Hd & Hin); [by left|].
  by eapply (result_of_step s s1).
Qed.

Lemma backtrack_fuel_sound n : rec_sound cw (backtrack_fuel cw n).
Proof.
  induction n as [|n IH]; intros l s r s' H; simpl in H.
  { unfold raise in H. injection H as <- <-. split; [apply searches_refl|].
    intros; discriminate. }
  rewrite (bind_val _ _ _ _ _ (eq_refl : emit (EvBacktrack l) s = (Val (), _))) in H.
  set (s0 := MkSolver (domains s) (heap s) (log s ++ [EvBacktrack l])) in *.
  assert (searches s s0) as Hs0 by apply searches_emit.
  apply bind_inv in H as [(complete & s1 & Hc & H)|(e & Hc & ->)].
  2:{ apply readonly_assignment_complete in Hc as ->. split; [done|]. intros; discriminate. }
  pose proof (readonly_assignment_complete _ _ _ _ _ Hc) as ->.
  destruct complete.
  { unfold ret in H. injection H as <- <-. split; [done|].
    intros a l' Ha [= <-]. exists a. split; [done|].
    rewrite (assignment_complete_run cw l s0 a Ha) in Hc.
    injection Hc as Hc. apply bool_decide_eq_true in Hc.
    split; [done|]. split; [done|]. split; [|by left].
    intros v w Hv Hn. congruence. }
  apply bind_inv in H as [(var & s1 & Hv & H)|(e & Hv & ->)].
  2:{ apply readonly_select_unassigned_variable in Hv as ->. split; [done|].
      intros; discriminate. }
  pose proof (readonly_select_unassigned_variable _ _ _ _ _ Hv) as ->.
  apply bind_inv in H as [(values & s1 & Ho & H)|(e & Ho & ->)].
  2:{ apply readonly_order_domain_values in Ho as ->. split; [done|].
      intros; discriminate. }
  pose proof (readonly_order_domain_values _ _ _ _ _ _ Ho) as ->.
  apply (backtrack_loop_sound _ _ _ _ _ _ _ IH) in H as [Hs' Hres].
  split; [by eapply searches_trans|].
  intros a l' Ha Hr.
  apply (select_unassigned_variable_val cw l s0 a) in Hv as [Hvar Hnone]; [|done].
  apply order_domain_values_val in Ho as (d & Hd & Hperm).
  destruct (Hres a l') as (a' & Ha' & Hsub & Hcomp & Hfrom & Hcons); [done..| |done|].
  { intros w Hw. exists d. split; [done|]. rewrite Hperm in Hw. by apply elem_of_elements in Hw. }
  exists a'. split; [done|]. split; [done|]. split; [done|]. split; [done|]. by right.
Qed.

Lemma backtrack_sound : rec_sound cw (backtrack cw).
Proof.
  intros l s r s' H. unfold backtrack in H.
  apply bind_inv in H as [(a & s1 & Hr & H)|(e & Hr & ->)].
  - apply readonly_read_dict in Hr as ->. by eapply backtrack_fuel_sound.
  - apply readonly_read_dict in Hr as ->. split; [apply searches_refl|].
    intros; discriminate.
Qed.

End search_soundness.

(** ** Backtracking search: termination and completeness *)

Section search_completeness.

Context (cw : Crossword).

Lemma store_ok_domains s s' : domains s' = domains s → store_ok cw s → store_ok cw s'.
Proof.
  intros Hd [H1 H2]. split.
  - intros v Hv. rewrite Hd. by apply H1.
  - intros v d w. rewrite Hd. apply H2.
Qed.

Lemma solution_domains s s' a b : domains s' = domains s → solution cw s a b → solution cw s' a b.
Proof.
  intros Hd (H1 & H2 & H3 & H4). repeat (split; [done|]).
  intros v w Hv Hn. rewrite Hd. by apply H4.
Qed.

Lemma solution_step s a b var value :
  a !! var = None → b !! var = Some value →
  solution cw s a b → solution cw s (<[var := value]> a) b.
Proof.
  intros Hn Hb (Hsub & Hdom & Hc & Hfrom). split; [|split; [done|split; [done|]]].
  - by apply insert_subseteq_l.
  - intros v w Hv Hnone. apply Hfrom; [done|].
    destruct (decide (var = v)) as [->|Hne].
    + by rewrite lookup_insert_eq in Hnone.
    + by rewrite lookup_insert_ne in Hnone.
Qed.

Lemma unassigned_insert_lt a var value :
  var ∈ unassigned cw a →
  length (unassigned cw (<[var := value]> a)) < length (unassigned cw a).
Proof.
  intros Hvar. unfold unassigned in *.
  rewrite (list_filter_iff _ (λ v, v ≠ var ∧ v ∉ dom a)).
  2:{ intros v. rewrite dom_insert_L, not_elem_of_union, not_elem_of_singleton. tauto. }
  rewrite <- (list_filter_filter (λ v, v ≠ var) (λ v, v ∉ dom a)).
  eapply length_filter_lt; [exact Hvar|]. intros Hne. by apply Hne.
Qed.

Lemma backtrack_loop_complete n l var a values s :
  overlaps_in_range cw → rec_complete cw n →
  a !! var = None → var ∈ variables cw → dom a ⊆ variables cw →
  length (unassigned cw a) ≤ n →
  store_ok cw s → heap s !! l = Some a →
  ∃ r s', backtrack_loop cw (backtrack_fuel cw n) l var values s = (Val r, s') ∧
          (r = None → ∀ b w, solution cw s a b → b !! var = Some w → w ∉ values).
Proof.
  intros Hrange Hrec Hnone Hvar Hsub Hlen. revert s.
  induction values as [|value values IH]; intros s Hok Ha.
  { exists None, s. split; [done|]. intros _ b w _ _. apply not_elem_of_nil. }
  simpl. rewrite (extend_dict_run _ _ _ _ _ _ Ha).
  set (a1 := <[var := value]> a) in *.
  set (s1 := MkSolver (domains s) (heap s ++ [a1]) (log s)) in *.
  assert (searches s s1) as Hs1 by apply searches_alloc.
  assert (heap s1 !! length (heap s) = Some a1) as Ha1.
  { simpl. by apply list_lookup_middle. }
  (* running the rest of the loop from a later state *)
  assert (¬ (∃ b, solution cw s a1 b) →
          ∀ s2, searches s1 s2 →
            ∃ r s', backtrack_loop cw (backtrack_fuel cw n) l var values s2 = (Val r, s') ∧
                    (r = None → ∀ b w, solution cw s a b → b !! var = Some w →
                                        w ∉ value :: values)) as Hrest.
  { intros Hno s2 Hs2.
    assert (searches s s2) as Hss2 by by eapply searches_trans.
    destruct (IH s2) as (r & s' & Hrun & Hres).
    { eapply store_ok_domains; [|exact Hok]. by destruct Hss2. }
    { by eapply searches_lookup. }
    exists r, s'. split; [done|]. intros Hr b w Hb Hw [->|Hin]%elem_of_cons.
    - apply Hno. exists b. by apply solution_step.
    - eapply (Hres Hr b w); [|done..]. eapply solution_domains; [|exact Hb]. by destruct Hss2. }
  unfold bind at 1. rewrite (consistent_run cw _ _ _ Ha1).
  destruct (consistent_dict_total cw a1 Hrange) as [ok Hcons]. rewrite Hcons.
  apply (consistent_dict_val cw) in Hcons.
  destruct ok.
  2:{ apply Hrest; [|apply searches_refl]. intros (b & Hsubb & _ & Hc & _).
      assert (false = true); [|done]. apply Hcons. by eapply Consistent_weaken. }
  destruct Hcons as [Hcons _]. specialize (Hcons eq_refl).
  assert (store_ok cw s1) as Hok1 by by eapply store_ok_domains; [|exact Hok].
  assert (dom a1 ⊆ variables cw) as Hsub1.
  { unfold a1. rewrite dom_insert_L. apply union_subseteq. split; [|done].
    by apply singleton_subseteq_l. }
  assert (length (unassigned cw a1) < n) as Hlen1.
  { eapply Nat.lt_le_trans; [|exact Hlen]. apply unassigned_insert_lt.
    by apply elem_of_unassigned. }
  destruct (Hrec (length (heap s)) s1 a1 Hok1 Ha1 Hsub1 (λ _, Hcons) Hlen1)
    as (r1 & s2 & Hrun & Hres).
  destruct (backtrack_fuel_sound cw n _ _ _ _ Hrun) as [Hs2 Hsound].
  erewrite bind_val by exact Hrun.
  destruct r1 as [l1|].
  - destruct (Hsound a1 l1 Ha1 eq_refl) as (a' & Ha' & Hsub' & _).
    erewrite bind_val.
    2:{ simpl. erewrite bind_val by by apply read_dict_some. reflexivity. }
    rewrite bool_decide_eq_true_2.
    + exists (Some l1), s2. split; [done|]. intros; discriminate.
    + intros ->. assert (a1 !! var = Some value) as Hv by apply lookup_insert_eq.
      eapply lookup_weaken in Hv; [|exact Hsub']. by rewrite lookup_empty in Hv.
  - erewrite bind_val by reflexivity.
    apply Hrest; [|done]. intros [b Hb].
    eapply (Hres eq_refl b), solution_domains; [|exact Hb]. done.
Qed.

Lemma backtrack_fuel_complete n : overlaps_in_range cw → rec_complete cw n.
Proof.
  intros Hrange. induction n as [|n IH]; intros l s a Hok Ha Hsub Hcons Hlen; [lia|].
  simpl.
  rewrite (bind_val _ _ _ _ _ (eq_refl : emit (EvBacktrack l) s = (Val (), _))).
  set (s0 := MkSolver (domains s) (heap s) (log s ++ [EvBacktrack l])) in *.
  assert (store_ok cw s0) as Hok0 by by eapply store_ok_domains; [|exact Hok].
  assert (heap s0 !! l = Some a) as Ha0 by done.
  erewrite bind_val by by apply assignment_complete_run.
  case_bool_decide as Hcomplete.
  { exists (Some l), s0. split; [done|]. intros; discriminate. }
  destruct Hok0 as [Hdoms Hnc].
  destruct (select_unassigned_variable_total cw l s0 a Ha0 Hdoms Hsub Hcomplete) as [var Hsel].
  erewrite bind_val by exact Hsel.
  apply (select_unassigned_variable_val cw l s0 a) in Hsel as [Hvar Hnone]; [|done].
  destruct (order_domain_values_total cw var l s0 a Hrange Hnc Hdoms Ha0 Hvar) as [values Hord].
  erewrite bind_val by exact Hord.
  apply order_domain_values_val in Hord as (d & Hd & Hperm).
  destruct (backtrack_loop_complete n l var a values s0) as (r & s' & Hrun & Hres);
    [done..|lia|done|done|].
  exists r, s'. split; [done|]. intros Hr b Hb.
  assert (is_Some (b !! var)) as [w Hw].
  { apply elem_of_dom. destruct Hb as (_ & -> & _). done. }
  destruct (Hb) as (_ & _ & _ & Hfrom).
  destruct (Hfrom var w Hw Hnone) as (d' & Hd' & Hin).
  eapply (Hres Hr b w); [|done|].
  - by eapply solution_domains; [|exact Hb].
  - rewrite Hperm. apply elem_of_elements. simpl in Hd. congruence.
Qed.

(** On a consistent partial assignment the search always returns: a
    solution cw if there is one, [None] otherwise. *)
Lemma backtrack_complete l s a :
  overlaps_in_range cw → store_ok cw s → heap s !! l = Some a →
  dom a ⊆ variables cw → (dom a = variables cw → Consistent cw a) →
  ∃ r s', backtrack cw l s = (Val r, s') ∧
          match r with
          | Some l' => ∃ a', heap s' !! l' = Some a' ∧ solution cw s a a'
          | None => ∀ b, ¬ solution cw s a b
          end.
Proof.
  intros Hrange Hok Ha Hsub Hcons. unfold backtrack.
  erewrite bind_val by by apply read_dict_some.
  destruct (backtrack_fuel_complete (S (length (unassigned cw a))) Hrange l s a)
    as (r & s' & Hrun & Hres); [done..|lia|].
  exists r, s'. split; [done|]. destruct r as [l'|]; [|by apply Hres].
  destruct (backtrack_fuel_sound cw _ _ _ _ _ Hrun) as [_ Hsound].
  destruct (Hsound a l' Ha eq_refl) as (a' & Ha' & Hsub' & Hdom & Hfrom & Hc).
  exists a'. split; [done|]. split; [done|]. split; [done|]. split; [|done].
  destruct Hc as [->|?]; [|done]. by apply Hcons.
Qed.

End search_completeness.

(** ** The recursion bound of the model is never reached *)

Lemma fuel_free_ret {A} (a : A) : fuel_free (ret a).
Proof. by intros s r s' [= <- _]. Qed.

Lemma fuel_free_raise {A} e : e ≠ OutOfFuel → fuel_free (@raise A e).
Proof. intros He s r s' [= <- _] [= ?]. done. Qed.

Lemma fuel_free_lift {A} (r : res A) : r ≠ Exn OutOfFuel → fuel_free (lift r).
Proof. by intros Hr s r' s' [= <- _]. Qed.

Lemma fuel_free_get_domain v : fuel_free (get_domain v).
Proof.
  intros s r s' H. by apply get_domain_inv in H as [_ [(? & _ & ->)|[_ ->]]].
Qed.

Lemma fuel_free_read_dict l : fuel_free (read_dict l).
Proof.
  intros s r s' H. by apply read_dict_inv in H as [_ [(? & _ & ->)|[_ ->]]].
Qed.

Lemma exn_not_out_of_fuel {A B} (m : M A) s e s' :
  fuel_free m → m s = (Exn e, s') → @Exn B e ≠ Exn OutOfFuel.
Proof. intros Hm H [= ->]. by apply (Hm _ _ _ H). Qed.

Lemma fuel_free_bind {A B} (m : M A) (k : A → M B) :
  fuel_free m → (∀ a, fuel_free (k a)) → fuel_free (bind m k).
Proof.
  intros Hm Hk s r s' H. apply bind_inv in H as [(a & s1 & H1 & H2)|(e & H1 & ->)].
  - exact (Hk a _ _ _ H2).
  - exact (exn_not_out_of_fuel _ _ _ _ Hm H1).
Qed.

Global Hint Resolve fuel_free_ret fuel_free_get_domain fuel_free_read_dict : fuel_free.

Lemma count_conflicts_exn i j value nvs c e :
  count_conflicts i j value nvs c = Exn e → e = IndexError.
Proof.
  revert c. induction nvs as [|u us IH]; intros c; simpl; [done|].
  unfold char_at.
  destruct (String.get i value); simpl; [|by intros [= <-]].
  destruct (String.get j u); simpl; [|by intros [= <-]].
  apply IH.
Qed.

Section recursion_bound.

Context (cw : Crossword).

Lemma consistent_dict_exn a e : consistent_dict cw a = Exn e → e = IndexError.
Proof.
  unfold consistent_dict. destruct (check_values _ _); [|done].
  induction (map_to_list a) as [|[var1 word1] items IH]; simpl; [done|].
  destruct (check_neighbors cw a var1 word1 _) as [ok|e'] eqn:E; simpl.
  - destruct ok; [exact IH|done].
  - intros [= <-]. clear IH. revert E.
    induction (elements (neighbors cw var1)) as [|var2 ns IHn]; simpl; [done|].
    destruct (a !! var2) as [word2|]; [|exact IHn].
    destruct (overlaps cw var1 var2) as [[i j]|]; [|exact IHn].
    unfold char_at.
    destruct (String.get i word1); simpl; [|by intros [= <-]].
    destruct (String.get j word2); simpl; [|by intros [= <-]].
    case_bool_decide; [done|exact IHn].
Qed.

Lemma fuel_free_consistent l : fuel_free (consistent cw l).
Proof.
  apply fuel_free_bind; [auto with fuel_free|]. intros a.
  apply fuel_free_lift. intros H. by apply consistent_dict_exn in H.
Qed.

Lemma fuel_free_assignment_complete l : fuel_free (assignment_complete cw l).
Proof. apply fuel_free_bind; auto with fuel_free. Qed.

Lemma fuel_free_truthy result : fuel_free (truthy result).
Proof.
  destruct result; simpl; [|auto with fuel_free].
  apply fuel_free_bind; auto with fuel_free.
Qed.

Lemma fuel_free_mrv_key var : fuel_free (mrv_key cw var).
Proof. apply fuel_free_bind; auto with fuel_free. Qed.

Lemma fuel_free_min_by best k l : fuel_free (min_by cw best k l).
Proof.
  revert best k. induction l as [|v l IH]; intros best k; simpl; [auto with fuel_free|].
  apply fuel_free_bind; [apply fuel_free_mrv_key|]. intros k'. destruct (key_lt k' k); apply IH.
Qed.

Lemma fuel_free_select_unassigned_variable l :
  fuel_free (select_unassigned_variable cw l).
Proof.
  apply fuel_free_bind; [auto with fuel_free|]. intros a.
  destruct (unassigned cw a); [by apply fuel_free_raise|].
  apply fuel_free_bind; [apply fuel_free_mrv_key|]. intros k. apply fuel_free_min_by.
Qed.

Lemma fuel_free_odv_neighbors var value ns c : fuel_free (odv_neighbors cw var value ns c).
Proof.
  revert c. induction ns as [|n ns IH]; intros c; simpl; [auto with fuel_free|].
  destruct (overlaps cw var n) as [[i j]|]; [|apply IH].
  apply fuel_free_bind; [auto with fuel_free|]. intros d.
  apply fuel_free_bind; [|intros c'; apply IH].
  apply fuel_free_lift. intros H. by apply count_conflicts_exn in H.
Qed.

Lemma fuel_free_odv_values var ns values constraint :
  fuel_free (odv_values cw var ns values constraint).
Proof.
  revert constraint. induction values as [|v values IH]; intros constraint; simpl;
    [auto with fuel_free|].
  apply fuel_free_bind; [apply fuel_free_odv_neighbors|]. intros c. apply IH.
Qed.

Lemma fuel_free_order_domain_values var l : fuel_free (order_domain_values cw var l).
Proof.
  apply fuel_free_bind; [auto with fuel_free|]. intros a.
  apply fuel_free_bind; [auto with fuel_free|]. intros d.
  apply fuel_free_bind; [apply fuel_free_odv_values|]. intros c.
  apply fuel_free_bind; auto with fuel_free.
Qed.

Lemma backtrack_loop_fuel n l var a values s r s' :
  (∀ l1 s1 a1 r1 s1', heap s1 !! l1 = Some a1 → length (unassigned cw a1) < n →
     backtrack_fuel cw n l1 s1 = (r1, s1') → r1 ≠ Exn OutOfFuel) →
  heap s !! l = Some a → var ∈ unassigned cw a → length (unassigned cw a) ≤ n →
  backtrack_loop cw (backtrack_fuel cw n) l var values s = (r, s') →
  r ≠ Exn OutOfFuel.
Proof.
  intros IH Ha Hvar Hlen. revert s Ha.
  induction values as [|value values IHv]; intros s Ha; simpl.
  { by intros [= <- _]. }
  rewrite (extend_dict_run _ _ _ _ _ _ Ha).
  set (a1 := <[var := value]> a).
  set (s1 := MkSolver (domains s) (heap s ++ [a1]) (log s)).
  assert (heap s1 !! length (heap s) = Some a1) as Ha1.
  { simpl. by apply list_lookup_middle. }
  assert (heap s1 !! l = Some a) as Hl1.
  { simpl. by apply lookup_app_l_Some. }
  intros H. apply bind_inv in H as [(ok & s1' & Hok & H)|(e & Hok & ->)].
  2:{ exact (exn_not_out_of_fuel _ _ _ _ (fuel_free_consistent _) Hok). }
  apply readonly_consistent in Hok as ->.
  destruct ok; [|by eapply IHv].
  apply bind_inv in H as [(result & s2 & Hrun & H)|(e & Hrun & ->)].
  2:{ eapply IH; [exact Ha1| |exact Hrun].
      eapply Nat.lt_le_trans; [|exact Hlen]. by apply unassigned_insert_lt. }
  destruct (backtrack_fuel_sound cw n _ _ _ _ Hrun) as [Hs2 _].
  apply bind_inv in H as [(t & s3 & Ht & H)|(e & Ht & ->)].
  2:{ exact (exn_not_out_of_fuel _ _ _ _ (fuel_free_truthy _) Ht). }
  assert (s3 = s2) as ->.
  { destruct result as [l'|]; simpl in Ht; [|by injection Ht].
    apply bind_inv in Ht as [(? & ? & Hr & Ht)|(? & _ & ?)]; [|done].
    apply readonly_read_dict in Hr as ->. by injection Ht. }
  destruct t; [by injection H as <- _|].
  eapply IHv; [|exact H]. by eapply searches_lookup.
Qed.

Lemma backtrack_fuel_enough n l s a r s' :
  heap s !! l = Some a → length (unassigned cw a) < n →
  backtrack_fuel cw n l s = (r, s') → r ≠ Exn OutOfFuel.
Proof.
  revert l s a r s'. induction n as [|n IH]; intros l s a r s' Ha Hlen; [lia|].
  simpl.
  rewrite (bind_val _ _ _ _ _ (eq_refl : emit (EvBacktrack l) s = (Val (), _))).
  set (s0 := MkSolver (domains s) (heap s) (log s ++ [EvBacktrack l])).
  assert (heap s0 !! l = Some a) as Ha0 by done.
  erewrite bind_val by by apply assignment_complete_run.
  case_bool_decide as Hcomplete; [by intros [= <- _]|].
  intros H. apply bind_inv in H as [(var & s1 & Hsel & H)|(e & Hsel & ->)].
  2:{ exact (exn_not_out_of_fuel _ _ _ _ (fuel_free_select_unassigned_variable _) Hsel). }
  pose proof (readonly_select_unassigned_variable _ _ _ _ _ Hsel) as ->.
  apply (select_unassigned_variable_val cw l s0 a) in Hsel; [|done].
  apply bind_inv in H as [(values & s1 & Hord & H)|(e & Hord & ->)].
  2:{ exact (exn_not_out_of_fuel _ _ _ _ (fuel_free_order_domain_values _ _) Hord). }
  pose proof (readonly_order_domain_values _ _ _ _ _ _ Hord) as ->.
  eapply (backtrack_loop_fuel n l var a); [|exact Ha0| |lia|exact H].
  - intros l1 s1 a1 r1 s1'. apply IH.
  - by apply elem_of_unassigned.
Qed.

(** [backtrack] and [solve] never stop for lack of fuel. *)
Lemma backtrack_never_out_of_fuel l : fuel_free (backtrack cw l).
Proof.
  unfold backtrack. intros s r s' H.
  apply bind_inv in H as [(a & s1 & Hr & H)|(e & Hr & ->)].
  - apply read_dict_inv in Hr as [-> [(a' & Ha & [= <-])|[_ ?]]]; [|done].
    eapply backtrack_fuel_enough; [exact Ha| |exact H]. lia.
  - exact (exn_not_out_of_fuel _ _ _ _ (fuel_free_read_dict _) Hr).
Qed.

Lemma solve_never_out_of_fuel : fuel_free (solve cw).
Proof.
  unfold solve. intros s r s' H.
  apply bind_inv in H as [([] & s1 & _ & H)|(e & Hn & ->)].
  2:{ destruct (enforce_node_consistency_spec s) as (? & Hrun & _). congruence. }
  apply bind_inv in H as [(b & s2 & _ & H)|(e & Hac3 & ->)].
  2:{ intros [= ->]. by apply ac3_never_out_of_fuel in Hac3. }
  rewrite (bind_val _ _ _ _ _ (eq_refl : alloc_dict ∅ s2 = (Val _, _))) in H.
  exact (backtrack_never_out_of_fuel _ _ _ _ H).
Qed.

End recursion_bound.

(** ** The search on a store with an empty domain *)

Section empty_domain.

Context (cw : Crossword).

(** [min] picks a variable with the fewest remaining values. *)
Lemma min_by_size best kbest l s var s' db :
  domains s !! best = Some db → kbest.1 = size db →
  min_by cw best kbest l s = (Val var, s') →
  ∃ dv, domains s !! var = Some dv ∧ size dv ≤ size db ∧
        ∀ v d, v ∈ l → domains s !! v = Some d → size dv ≤ size d.
Proof.
  revert best kbest db. induction l as [|x l IH]; intros best kbest db Hb Hk; simpl.
  - intros [= <- _]. exists db. split; [done|]. split; [done|].
    by intros ?? ?%not_elem_of_nil.
  - intros H. apply bind_inv in H as [(k & s1 & Hkey & H)|(e & _ & ?)]; [|done].
    unfold mrv_key in Hkey.
    apply bind_inv in Hkey as [(dx & s2 & Hg & Hkey)|(e & _ & ?)]; [|done].
    apply get_domain_inv in Hg as [-> [(dx' & Hdx & [= <-])|[_ ?]]]; [|done].
    unfold ret in Hkey. injection Hkey as <- <-.
    unfold key_lt in H. simpl in H.
    destruct (bool_decide (size dx < kbest.1)) eqn:E1; simpl in H.
    + apply bool_decide_eq_true in E1.
      destruct (IH x (size dx, _) dx Hdx eq_refl H) as (dv & Hdv & Hle & Hall).
      exists dv. split; [done|]. split; [lia|].
      intros v d [->|Hv]%elem_of_cons Hd; [|by eapply Hall]. by simplify_eq.
    + apply bool_decide_eq_false in E1.
      destruct (bool_decide (size dx = kbest.1) && _) eqn:E2.
      * apply andb_true_iff in E2 as [E2%bool_decide_eq_true _].
        destruct (IH x (size dx, _) dx Hdx eq_refl H) as (dv & Hdv & Hle & Hall).
        exists dv. split; [done|]. split; [lia|].
        intros v d [->|Hv]%elem_of_cons Hd; [|by eapply Hall]. by simplify_eq.
      * destruct (IH _ _ db Hb Hk H) as (dv & Hdv & Hle & Hall).
        exists dv. split; [done|]. split; [done|].
        intros v d [->|Hv]%elem_of_cons Hd; [|by eapply Hall]. simplify_eq. lia.
Qed.

Lemma select_unassigned_variable_size l s a var s' :
  heap s !! l = Some a →
  select_unassigned_variable cw l s = (Val var, s') →
  ∃ dv, domains s !! var = Some dv ∧
        ∀ v d, v ∈ variables cw → a !! v = None → domains s !! v = Some d →
               size dv ≤ size d.
Proof.
  intros Ha. unfold select_unassigned_variable.
  erewrite bind_val by by apply read_dict_some.
  destruct (unassigned cw a) as [|x l'] eqn:Hun; [done|].
  intros H. apply bind_inv in H as [(k & s1 & Hkey & H)|(e & _ & ?)]; [|done].
  unfold mrv_key in Hkey.
  apply bind_inv in Hkey as [(dx & s2 & Hg & Hkey)|(e & _ & ?)]; [|done].
  apply get_domain_inv in Hg as [-> [(dx' & Hdx & [= <-])|[_ ?]]]; [|done].
  unfold ret in Hkey. injection Hkey as <- <-.
  destruct (min_by_size x (size dx, _) _ _ _ _ dx Hdx eq_refl H) as (dv & Hdv & Hle & Hall).
  exists dv. split; [done|]. intros v d Hv Hn Hd.
  assert (v ∈ x :: l') as [->|Hin]%elem_of_cons.
  { rewrite <- Hun. by apply elem_of_unassigned. }
  - by simplify_eq.
  - by eapply Hall.
Qed.

(** With an unbound variable whose domain is empty, the search fails at
    its first node. *)
Lemma backtrack_empty_domain l s a v :
  heap s !! l = Some a → dom a ⊆ variables cw →
  (∀ x, x ∈ variables cw → is_Some (domains s !! x)) →
  v ∈ variables cw → a !! v = None → domains s !! v = Some ∅ →
  backtrack cw l s =
    (Val None, MkSolver (domains s) (heap s) (log s ++ [EvBacktrack l])).
Proof.
  intros Ha Hsub Hdoms Hv Hnone Hempty. unfold backtrack.
  erewrite bind_val by by apply read_dict_some.
  simpl.
  rewrite (bind_val _ _ _ _ _ (eq_refl : emit (EvBacktrack l) s = (Val (), _))).
  set (s0 := MkSolver (domains s) (heap s) (log s ++ [EvBacktrack l])).
  assert (heap s0 !! l = Some a) as Ha0 by done.
  erewrite bind_val by by apply assignment_complete_run.
  rewrite bool_decide_eq_false_2.
  2:{ intros Heq. apply not_elem_of_dom in Hnone. apply Hnone. by rewrite Heq. }
  destruct (select_unassigned_variable_total cw l s0 a Ha0 Hdoms Hsub) as [var Hsel].
  { intros Heq. apply not_elem_of_dom in Hnone. apply Hnone. by rewrite Heq. }
  erewrite bind_val by exact Hsel.
  destruct (select_unassigned_variable_size _ _ _ _ _ Ha0 Hsel) as (dv & Hdv & Hmin).
  assert (dv = ∅) as ->.
  { specialize (Hmin v ∅ Hv Hnone Hempty). rewrite size_empty in Hmin.
    apply leibniz_equiv, size_empty_inv. lia. }
  assert (order_domain_values cw var l s0 = (Val [], s0)) as Hord.
  { unfold order_domain_values.
    erewrite bind_val by by apply read_dict_some.
    erewrite bind_val by by apply get_domain_some.
    rewrite elements_empty. simpl.
    erewrite bind_val by reflexivity.
    erewrite bind_val by by apply get_domain_some.
    rewrite elements_empty. reflexivity. }
  erewrite bind_val by exact Hord. reflexivity.
Qed.

End empty_domain.

(** * Example puzzles *)

Lemma two_slots_wf vocabulary : wf_crossword (two_slots vocabulary).
Proof.
  split.
  - intros x y i j. simpl. unfold crossing.
    repeat case_bool_decide; naive_solver.
  - intros x y i j. simpl. unfold crossing.
    repeat case_bool_decide; intros [= <- <-]; destruct_and!; subst; simpl; lia.
Qed.


(** * The properties of the specification *)

(** ** Node consistency and propagation *)

(** C4. The domain store starts with one entry per variable, each the full
    vocabulary; [enforce_node_consistency] always returns, keeps of every
    domain exactly the words of the variable's length, and so leaves only
    words [w] of [Domain[v]] with [length(w) = v.length]. *)
Theorem node_consistency_lengths (cw : Crossword) (s : solver) :
  dom (domains (CrosswordCreator_init cw)) = variables cw ∧
  (∀ v d, domains (CrosswordCreator_init cw) !! v = Some d → d = words cw) ∧
  ∃ s', enforce_node_consistency s = (Val (), s') ∧
    (∀ v d w, domains s' !! v = Some d → w ∈ d → String.length w = var_length v) ∧
    (∀ v d, domains s !! v = Some d →
       ∃ d', domains s' !! v = Some d' ∧
             ∀ w, w ∈ d' ↔ w ∈ d ∧ String.length w = var_length v) ∧
    dom (domains s') = dom (domains s).
Proof.
  split; [apply dom_gset_to_gmap|]. split.
  { intros v d Hv. simpl in Hv. by apply lookup_gset_to_gmap_Some in Hv as [_ <-]. }
  destruct (enforce_node_consistency_spec s) as (s' & Hrun & _ & _ & Hdom).
  exists s'. split; [done|]. split; [|split].
  - intros v d w Hv Hw. rewrite Hdom in Hv.
    destruct (domains s !! v) as [d0|]; simplify_eq/=.
    by apply elem_of_node_filter in Hw as [_ ?].
  - intros v d Hv. rewrite Hdom, Hv. simpl. eexists. split; [done|].
    intros w. apply elem_of_node_filter.
  - apply set_eq. intros v. rewrite !elem_of_dom, Hdom.
    by rewrite fmap_is_Some.
Qed.

(** C8. A step of node consistency or of AC-3 propagation, whatever its
    result, leaves every domain a subset of what it was, of no greater
    size, and neither adds nor drops a domain. *)
Theorem domains_only_shrink (cw : Crossword) (s s' : solver) (v : Var) :
  propagation_step cw s s' →
  match domains s !! v, domains s' !! v with
  | Some d, Some d' => d' ⊆ d ∧ size d' ≤ size d
  | None, None => True
  | _, _ => False
  end.
Proof.
  intros Hstep.
  assert (shrinks (domains s) (domains s')) as Hsh.
  { destruct Hstep as [var r H|r H|x y r H|arcs r H].
    - by apply node_step_shrinks in H as (_ & _ & ?).
    - destruct (enforce_node_consistency_spec s) as (s1 & Hrun & _ & _ & Hdom).
      rewrite Hrun in H. injection H as _ <-. intros u. rewrite Hdom.
      destruct (domains s !! u) as [d|]; constructor.
      intros w Hw. by apply elem_of_node_filter in Hw as [? _].
    - by apply revise_propagates in H as (_ & ? & _).
    - by apply ac3_propagates in H as (_ & ? & _). }
  specialize (Hsh v).
  destruct (domains s !! v) as [d|], (domains s' !! v) as [d'|]; inversion Hsh; subst; [|done].
  split; [done|]. by apply subseteq_size.
Qed.

(** C6. On domains whose words reach the overlap positions, [revise(x, y)]
    returns; it leaves in [Domain[x]] exactly the words that have a
    supporting word in [Domain[y]], changes no other domain, and returns
    true exactly when it removed a word. *)
Theorem revise_removes_unsupported (cw : Crossword) (s : solver) (x y : Var)
    (dx dy : gset string) :
  domains s !! x = Some dx → domains s !! y = Some dy →
  (∀ i j, overlaps cw x y = Some (i, j) →
     (∀ w, w ∈ dx → i < String.length w) ∧ (∀ w, w ∈ dy → j < String.length w)) →
  ∃ b s' dx', revise cw x y s = (Val b, s') ∧
    domains s' = <[x := dx']> (domains s) ∧
    (∀ w, w ∈ dx' ↔ w ∈ dx ∧ has_support cw dy x y w) ∧
    (b = true ↔ dx' ≠ dx).
Proof.
  intros Hdx Hdy Hlen.
  destruct (revise_total cw x y s dx dy Hdx Hdy Hlen) as (b & s' & Hrun).
  exists b, s'. pose proof Hrun as Hinv. apply revise_inv in Hinv as (_ & _ & Hinv).
  unfold has_support. destruct (overlaps cw x y) as [[i j]|].
  - destruct Hinv as (dx0 & dx' & Hdx0 & Hd & Hin & Hb). simplify_eq.
    exists dx'. split; [done|]. split; [done|].
    assert (∀ w, supported s y i j w ↔ ∃ w', w' ∈ dy ∧ agree_at i j w w') as Hsup.
    { intros w. split.
      - intros (dy' & w' & ? & ? & ?). exists w'. by simplify_eq.
      - intros (w' & ? & ?). by exists dy, w'. }
    split.
    + intros w. by rewrite Hin, Hsup.
    + rewrite Hb. split.
      * intros (w & Hw & Hns) ->. apply Hin in Hw as [_ ?]. done.
      * intros Hne. apply dec_stable. intros Hnone. apply Hne.
        apply set_eq. intros w. rewrite Hin. split; [tauto|]. intros Hw. split; [done|].
        destruct (decide (supported s y i j w)); [done|]. destruct Hnone. eauto.
  - destruct Hinv as [-> Hd]. exists dx. split; [done|].
    split; [by rewrite Hd, insert_id|]. split; [tauto|]. done.
Qed.

(** C5. When [ac3], started on all arcs of a puzzle whose overlap table is
    that of unordered pairs, returns true, every word of [Domain[x]] has
    for every neighbour [y] of [x] a word of [Domain[y]] that agrees with
    it at the overlap of [x] and [y]. *)
Theorem ac3_success_arc_consistent (cw : Crossword) (s s' : solver) (x y : Var)
    (i j : nat) (dx : gset string) (w : string) :
  overlaps_symmetric cw →
  ac3 cw None s = (Val true, s') →
  x ∈ variables cw → y ∈ neighbors cw x → overlaps cw x y = Some (i, j) →
  domains s' !! x = Some dx → w ∈ dx →
  ∃ dy w', domains s' !! y = Some dy ∧ w' ∈ dy ∧ agree_at i j w w'.
Proof.
  intros Hsym Hrun Hx Hy Hov Hdx Hw.
  by eapply (ac3_arc_consistent cw s s' Hsym Hrun x y).
Qed.

(** C7. After a successful [ac3] on a puzzle whose overlap table is that
    of unordered pairs, a second [ac3] on the same store succeeds too,
    calls [revise] once per arc, every call returning false, and leaves the
    domains as they are. *)
Theorem ac3_idempotent (cw : Crossword) (s s1 : solver) :
  overlaps_symmetric cw →
  ac3 cw None s = (Val true, s1) →
  ∃ s2, ac3 cw None s1 = (Val true, s2) ∧
        domains s2 = domains s1 ∧
        log s2 = log s1 ++ ((λ a, EvRevise a.1 a.2 false) <$> initial_arcs cw).
Proof.
  intros Hsym Hrun.
  destruct (ac3_fixed cw s s1 Hsym Hrun) as (s2 & H2 & Hd & _ & Hl).
  by exists s2.
Qed.

(** ** Search *)

(** C9. [backtrack] and the methods it calls leave the domain store as it
    was, whatever they return. *)
Theorem search_keeps_domains (cw : Crossword) (s s' : solver) :
  search_call cw s s' → domains s' = domains s.
Proof.
  intros [l r H|l r H|var l r H|l r H|l r H].
  - by apply backtrack_sound in H as [(? & _) _].
  - by apply readonly_select_unassigned_variable in H as ->.
  - by apply readonly_order_domain_values in H as ->.
  - by apply readonly_consistent in H as ->.
  - by apply readonly_assignment_complete in H as ->.
Qed.

(** C10. [backtrack(A)] leaves the dict [A], and every other dict that
    exists when it is called, as it was; an assignment that it returns
    binds every variable of [A] to the word [A] gives it. *)
Theorem backtrack_preserves_assignment (cw : Crossword) (s s' : solver) (l : loc)
    (a : gmap Var string) (r : res (option loc)) :
  heap s !! l = Some a →
  backtrack cw l s = (r, s') →
  heap s' !! l = Some a ∧
  (∀ k b, heap s !! k = Some b → heap s' !! k = Some b) ∧
  match r with
  | Val (Some l') => ∃ a', heap s' !! l' = Some a' ∧ a ⊆ a'
  | _ => True
  end.
Proof.
  intros Ha Hrun. apply backtrack_sound in Hrun as [Hs Hres].
  split; [by eapply searches_lookup|]. split.
  { intros k b Hk. by eapply searches_lookup. }
  destruct r as [[l'|]|]; [|done..].
  destruct (Hres a l' Ha eq_refl) as (a' & Ha' & Hsub & _). eauto.
Qed.

(** C2. An assignment returned by [solve] binds every variable of the
    puzzle, uses no word twice, gives every variable a word of its length,
    and any two of its variables that cross agree at their overlap. *)
Theorem solve_result_consistent (cw : Crossword) (s s' : solver) (l : loc) :
  solve cw s = (Val (Some l), s') →
  ∃ a, heap s' !! l = Some a ∧
    dom a = variables cw ∧
    (∀ v1 v2 w, a !! v1 = Some w → a !! v2 = Some w → v1 = v2) ∧
    (∀ v w, a !! v = Some w → String.length w = var_length v) ∧
    (∀ v1 v2 w1 w2 i j, a !! v1 = Some w1 → a !! v2 = Some w2 → v1 ≠ v2 →
       overlaps cw v1 v2 = Some (i, j) → agree_at i j w1 w2).
Proof.
  unfold solve. intros H.
  apply bind_inv in H as [(? & s1 & _ & H)|(e & _ & ?)]; [|done].
  apply bind_inv in H as [(? & s2 & _ & H)|(e & _ & ?)]; [|done].
  rewrite (bind_val _ _ _ _ _ (eq_refl : alloc_dict ∅ s2 = (Val _, _))) in H.
  apply backtrack_sound in H as [_ Hres].
  destruct (Hres ∅ l) as (a & Ha & _ & Hdom & _ & Hcons); [|done|].
  { simpl. by apply list_lookup_middle. }
  assert (Consistent cw a) as (Hlen & Hinj & Hov).
  { destruct Hcons as [->|?]; [apply Consistent_empty|done]. }
  exists a. split; [done|]. split; [done|]. split; [done|]. split; [done|].
  intros v1 v2 w1 w2 i j H1 H2 Hne Ho. eapply Hov; [done..| |done].
  apply elem_of_neighbors. split; [|split; [done|by rewrite Ho]].
  rewrite <- Hdom. apply elem_of_dom. eauto.
Qed.

(** C3, as the code has it.  On a store with a domain of words of the
    right length for every variable, and for a partial assignment [A] of
    the puzzle's variables that is incomplete or consistent, [backtrack(A)]
    returns: a complete consistent assignment that extends [A] with words
    of the domains if there is one, and [None] if there is none. *)
Theorem backtrack_finds_solution (cw : Crossword) (s : solver) (l : loc)
    (a : gmap Var string) :
  overlaps_in_range cw → store_ok cw s →
  heap s !! l = Some a → dom a ⊆ variables cw →
  dom a ≠ variables cw ∨ Consistent cw a →
  ∃ r s', backtrack cw l s = (Val r, s') ∧
          match r with
          | Some l' => ∃ a', heap s' !! l' = Some a' ∧ solution cw s a a'
          | None => ∀ b, ¬ solution cw s a b
          end.
Proof.
  intros Hrange Hok Ha Hsub Hcons. apply backtrack_complete; try done.
  intros Hcomplete. by destruct Hcons.
Qed.

(** C1, as the code has it.  When propagation empties a domain, [ac3]
    returns false; [solve] drops that result, calls [backtrack] on a new
    empty assignment, and returns the [None] that this one call returns. *)
Theorem ac3_failure_then_search (cw : Crossword) (s0 s1 s2 : solver)
    (r : res bool) (v : Var) (d : gset string) :
  dom (domains s0) = variables cw →
  enforce_node_consistency s0 = (Val (), s1) →
  domains s1 !! v = Some d → d ≠ ∅ →
  ac3 cw None s1 = (r, s2) → domains s2 !! v = Some ∅ →
  r = Val false ∧
  solve cw s0 =
    (Val None,
     MkSolver (domains s2) (heap s2 ++ [∅]) (log s2 ++ [EvBacktrack (length (heap s2))])).
Proof.
  intros Hdom Hnode Hd Hne Hac3 Hempty.
  assert (r = Val false) as -> by by eapply ac3_loop_emptied.
  split; [done|]. unfold solve.
  erewrite bind_val by exact Hnode. erewrite bind_val by exact Hac3.
  rewrite (bind_val _ _ _ _ _ (eq_refl : alloc_dict ∅ s2 = (Val _, _))).
  assert (dom (domains s2) = variables cw) as Hdom2.
  { apply ac3_propagates in Hac3 as (_ & Hsh & _). rewrite (shrinks_dom _ _ Hsh).
    destruct (enforce_node_consistency_spec s0) as (s1' & Hrun & _ & _ & Hl).
    rewrite Hrun in Hnode. injection Hnode as <-. rewrite <- Hdom.
    apply set_eq. intros u. rewrite !elem_of_dom, Hl. by rewrite fmap_is_Some. }
  erewrite (backtrack_empty_domain cw _ _ ∅ v); [done|..].
  - simpl. by apply list_lookup_middle.
  - rewrite dom_empty_L. apply empty_subseteq.
  - intros x Hx. simpl. apply elem_of_dom. by rewrite Hdom2.
  - rewrite <- Hdom2. apply elem_of_dom. eauto.
  - apply lookup_empty.
  - done.
Qed.

(** ** The store that [solve] hands to the search *)

Lemma enforce_node_consistent s s' :
  enforce_node_consistency s = (Val (), s') → node_consistent s'.
Proof.
  intros H. destruct (enforce_node_consistency_spec s) as (s1 & Hrun & _ & _ & Hdom).
  rewrite Hrun in H. injection H as <-.
  intros v d w Hv Hw. rewrite Hdom in Hv.
  destruct (domains s !! v) as [d0|]; simplify_eq/=.
  by apply elem_of_node_filter in Hw as [_ ?].
Qed.

Lemma propagated_store_ok cw s0 s1 r s2 :
  dom (domains s0) = variables cw →
  enforce_node_consistency s0 = (Val (), s1) →
  ac3 cw None s1 = (r, s2) →
  store_ok cw s2.
Proof.
  intros Hdom Hnode Hac3.
  pose proof (enforce_node_consistent _ _ Hnode) as Hnc.
  apply ac3_propagates in Hac3 as (_ & Hsh & _).
  split; [|by eapply node_consistent_shrinks].
  intros v Hv. apply elem_of_dom. rewrite (shrinks_dom _ _ Hsh).
  destruct (enforce_node_consistency_spec s0) as (s1' & Hrun & _ & _ & Hl).
  rewrite Hrun in Hnode. injection Hnode as <-.
  apply elem_of_dom. rewrite Hl, fmap_is_Some. apply elem_of_dom. by rewrite Hdom.
Qed.

(** * The properties at the example puzzles *)

Lemma solvable_filtered_run :
  enforce_node_consistency (CrosswordCreator_init solvable) = (Val (), solvable_filtered).
Proof. vm_compute. reflexivity. Defined.

Lemma solvable_propagated_run :
  ac3 solvable None solvable_filtered = (Val true, solvable_propagated).
Proof. vm_compute. reflexivity. Defined.

Lemma solve_result_consistent_witness :
  ∃ a, heap (solve solvable (CrosswordCreator_init solvable)).2 !! 2 = Some a ∧
    dom a = variables solvable ∧
    (∀ v1 v2 w, a !! v1 = Some w → a !! v2 = Some w → v1 = v2) ∧
    (∀ v w, a !! v = Some w → String.length w = var_length v) ∧
    (∀ v1 v2 w1 w2 i j, a !! v1 = Some w1 → a !! v2 = Some w2 → v1 ≠ v2 →
       overlaps solvable v1 v2 = Some (i, j) → agree_at i j w1 w2).
Proof.
  apply (solve_result_consistent solvable (CrosswordCreator_init solvable)).
  vm_compute. reflexivity.
Defined.

Lemma node_consistency_lengths_example :
  domains solvable_filtered !! across3 = Some {["cat"; "car"; "rat"; "art"]}.
Proof. vm_compute. reflexivity. Qed.

Lemma domains_only_shrink_witness :
  match domains (CrosswordCreator_init solvable) !! across3,
        domains solvable_filtered !! across3 with
  | Some d, Some d' => d' ⊆ d ∧ size d' ≤ size d
  | None, None => True
  | _, _ => False
  end.
Proof.
  apply (domains_only_shrink solvable).
  eapply step_enforce_node_consistency. apply solvable_filtered_run.
Defined.

Lemma revise_removes_unsupported_witness :
  ∃ b s' dx', revise solvable down3 across3 solvable_filtered = (Val b, s') ∧
    domains s' = <[down3 := dx']> (domains solvable_filtered) ∧
    (∀ w, w ∈ dx' ↔ w ∈ ({["cat"; "car"; "rat"; "art"]} : gset string) ∧
                   has_support solvable {["cat"; "car"; "rat"; "art"]} down3 across3 w) ∧
    (b = true ↔ dx' ≠ {["cat"; "car"; "rat"; "art"]}).
Proof.
  apply (revise_removes_unsupported solvable solvable_filtered down3 across3).
  - vm_compute. reflexivity.
  - vm_compute. reflexivity.
  - intros i j Hov. vm_compute in Hov. injection Hov as <- <-.
    split; intros w Hw; set_unfold; destruct_or!; subst; simpl; lia.
Defined.

Lemma ac3_success_arc_consistent_witness :
  ∃ dy w', domains solvable_propagated !! down3 = Some dy ∧ w' ∈ dy ∧
           agree_at 1 0 "cat" w'.
Proof.
  apply (ac3_success_arc_consistent solvable solvable_filtered solvable_propagated
           across3 down3 1 0 {["cat"; "car"; "rat"; "art"]}).
  - apply two_slots_wf.
  - apply solvable_propagated_run.
  - by_compute.
  - by_compute.
  - vm_compute. reflexivity.
  - vm_compute. reflexivity.
  - by_compute.
Defined.

Lemma ac3_idempotent_witness :
  ∃ s2, ac3 solvable None solvable_propagated = (Val true, s2) ∧
        domains s2 = domains solvable_propagated ∧
        log s2 = log solvable_propagated ++
                 ((λ a, EvRevise a.1 a.2 false) <$> initial_arcs solvable).
Proof.
  apply (ac3_idempotent solvable solvable_filtered).
  - apply two_slots_wf.
  - apply solvable_propagated_run.
Defined.

Lemma solvable_search_ok : store_ok solvable solvable_search.
Proof.
  apply (store_ok_domains solvable solvable_propagated); [done|].
  eapply (propagated_store_ok solvable (CrosswordCreator_init solvable)).
  - apply dom_gset_to_gmap.
  - apply solvable_filtered_run.
  - apply solvable_propagated_run.
Defined.

Lemma search_keeps_domains_witness :
  domains (backtrack solvable 0 solvable_search).2 = domains solvable_search.
Proof.
  apply (search_keeps_domains solvable).
  eapply call_backtrack. apply surjective_pairing.
Defined.

Lemma backtrack_preserves_assignment_witness :
  heap (backtrack solvable 0 solvable_search).2 !! 0 = Some ∅ ∧
  (∀ k b, heap solvable_search !! k = Some b →
          heap (backtrack solvable 0 solvable_search).2 !! k = Some b) ∧
  ∃ a', heap (backtrack solvable 0 solvable_search).2 !! 2 = Some a' ∧ ∅ ⊆ a'.
Proof.
  apply (backtrack_preserves_assignment solvable solvable_search _ 0 ∅ (Val (Some 2))).
  - reflexivity.
  - vm_compute. reflexivity.
Defined.

Lemma backtrack_finds_solution_witness :
  ∃ r s', backtrack solvable 0 solvable_search = (Val r, s') ∧
          match r with
          | Some l' => ∃ a', heap s' !! l' = Some a' ∧ solution solvable solvable_search ∅ a'
          | None => ∀ b, ¬ solution solvable solvable_search ∅ b
          end.
Proof.
  apply (backtrack_finds_solution solvable solvable_search 0 ∅).
  - apply two_slots_wf.
  - apply solvable_search_ok.
  - reflexivity.
  - rewrite dom_empty_L. apply empty_subseteq.
  - right. apply Consistent_empty.
Defined.

Lemma ac3_failure_then_search_witness :
  Val false = Val false ∧
  solve unsolvable (CrosswordCreator_init unsolvable) =
    (Val None,
     MkSolver (domains unsolvable_propagated) (heap unsolvable_propagated ++ [∅])
       (log unsolvable_propagated ++ [EvBacktrack (length (heap unsolvable_propagated))])).
Proof.
  apply (ac3_failure_then_search unsolvable (CrosswordCreator_init unsolvable)
           unsolvable_filtered unsolvable_propagated (Val false) down3
           {["cat"; "car"; "rat"]}).
  - apply dom_gset_to_gmap.
  - vm_compute. reflexivity.
  - vm_compute. reflexivity.
  - intros H. assert ("cat" ∈ (∅ : gset string)) as Hin; [|by apply not_elem_of_empty in Hin].
    rewrite <- H. by_compute.
  - vm_compute. reflexivity.
  - vm_compute. reflexivity.
Defined.

(** ** Where the specification and the code part *)

(** On the puzzle of the specification's second scenario AC-3 empties the
    domain of [down3], and [solve] still enters [backtrack]. *)
Lemma ac3_failure_still_searches : ¬ ac3_failure_skips_search unsolvable.
Proof.
  intros H.
  destruct (H unsolvable_filtered (Val false) unsolvable_propagated down3
              {["cat"; "car"; "rat"]}) as (_ & s3 & Hsolve & Hlog).
  - vm_compute. reflexivity.
  - vm_compute. reflexivity.
  - intros He. assert ("cat" ∈ (∅ : gset string)) as Hin; [|by apply not_elem_of_empty in Hin].
    rewrite <- He. by_compute.
  - vm_compute. reflexivity.
  - vm_compute. reflexivity.
  - apply (Hlog 0).
    assert (log s3 = log (solve unsolvable (CrosswordCreator_init unsolvable)).2) as ->.
    { by rewrite Hsolve. }
    vm_compute. right. left.
Qed.

(** [backtrack] returns the complete assignment it is given without
    checking it: here an inconsistent one, although the domains hold a
    solution and no solution extends the one given. *)
Lemma backtrack_returns_inconsistent_input :
  ¬ search_complete one_slot one_slot_search 0 ∅ ∧
  ¬ search_complete one_slot one_slot_search 0 zebra.
Proof.
  assert (backtrack one_slot 0 one_slot_search =
            (Val (Some 0), (backtrack one_slot 0 one_slot_search).2)) as Hrun.
  { vm_compute. reflexivity. }
  assert (heap (backtrack one_slot 0 one_slot_search).2 !! 0 = Some zebra) as Hheap.
  { vm_compute. reflexivity. }
  assert (∀ b, zebra ⊆ b → ¬ Consistent one_slot b) as Hbad.
  { intros b Hsub (Hlen & _).
    assert (b !! across3 = Some "zebra") as Hb.
    { eapply lookup_weaken; [|exact Hsub]. apply lookup_singleton_eq. }
    apply Hlen in Hb. simpl in Hb. lia. }
  split.
  - intros (r & s' & Hr & Hsome & _). rewrite Hrun in Hr. injection Hr as <- <-.
    destruct Hsome as (l' & a' & [= <-] & Ha' & _ & _ & Hc & _).
    + exists {[across3 := "cat"]}. split; [apply map_empty_subseteq|].
      split; [by_compute|]. split.
      * apply (consistent_dict_val one_slot _ true); [|done]. vm_compute. reflexivity.
      * intros v w Hv _. apply lookup_singleton_Some in Hv as [<- <-].
        exists {["cat"; "dog"]}. split; [vm_compute; reflexivity|by_compute].
    + pose proof (eq_trans (eq_sym Hheap) Ha') as [= <-]. by apply (Hbad zebra).
  - intros (r & s' & Hr & _ & Hnone). rewrite Hrun in Hr. injection Hr as <- <-.
    assert (Some 0 = None) as Habs; [|done].
    apply Hnone. intros b (Hsub & _ & Hc & _). by apply (Hbad b).
Qed.

(** * Further properties of the code *)

(** ** [consistent] *)

Section consistent_more.

Context (cw : Crossword).

Lemma check_neighbors_agree a var1 word1 ns :
  neighbors_agree cw a var1 word1 ns →
  check_neighbors cw a var1 word1 ns = Val true.
Proof.
  induction ns as [|var2 ns IH]; intros Hag; simpl; [done|].
  assert (check_neighbors cw a var1 word1 ns = Val true) as Hrest.
  { apply IH. intros v w i j ?. apply Hag. by right. }
  destruct (a !! var2) as [word2|] eqn:Ha; [|done].
  destruct (overlaps cw var1 var2) as [[i j]|] eqn:Hov; [|done].
  destruct (Hag var2 word2 i j) as (c & H1 & H2); [by left|done..|].
  apply char_at_val in H1, H2. rewrite H1, H2. simpl.
  by rewrite bool_decide_eq_false_2 by (intros Hne; by apply Hne).
Qed.

Lemma check_overlaps_agree a items :
  (∀ var1 word1, (var1, word1) ∈ items →
     neighbors_agree cw a var1 word1 (elements (neighbors cw var1))) →
  check_overlaps cw a items = Val true.
Proof.
  induction items as [|[var1 word1] items IH]; intros Hag; simpl; [done|].
  rewrite check_neighbors_agree by (apply Hag; by left). simpl.
  apply IH. intros v w ?. apply Hag. by right.
Qed.

(** A consistent assignment passes the check, whatever the overlap table:
    the agreeing letters show that no index is out of range. *)
Lemma Consistent_consistent_dict a :
  Consistent cw a → consistent_dict cw a = Val true.
Proof.
  intros (Hlen & Hinj & Hov). unfold consistent_dict.
  assert (check_values (map_to_list a) ∅ = true) as ->.
  { apply check_values_spec. split; [|split].
    - intros v w Hv. apply Hlen. by apply elem_of_map_to_list.
    - apply NoDup_fmap_2_strong; [|apply NoDup_map_to_list].
      intros [v1 w1] [v2 w2] H1%elem_of_map_to_list H2%elem_of_map_to_list Heq.
      simpl in Heq. subst. f_equal. by eapply Hinj.
    - intros w _. apply not_elem_of_empty. }
  apply check_overlaps_agree.
  intros v1 w1 Hin v2 w2 i j Hn H2 Ho.
  apply elem_of_map_to_list in Hin. apply elem_of_elements in Hn.
  by eapply Hov.
Qed.

End consistent_more.

(** X1. [consistent(A)] returns true exactly when every word of [A] has
    the length of its variable, no two variables of [A] hold the same word,
    and every variable of [A] agrees with each of its neighbours in [A] at
    their overlap. *)
Theorem consistent_true_iff (cw : Crossword) (s : solver) (l : loc)
    (a : gmap Var string) :
  heap s !! l = Some a →
  consistent cw l s = (Val true, s) ↔
    (∀ v w, a !! v = Some w → String.length w = var_length v) ∧
    (∀ v1 v2 w, a !! v1 = Some w → a !! v2 = Some w → v1 = v2) ∧
    (∀ v1 v2 w1 w2 i j, a !! v1 = Some w1 → a !! v2 = Some w2 →
       v2 ∈ neighbors cw v1 → overlaps cw v1 v2 = Some (i, j) → agree_at i j w1 w2).
Proof.
  intros Ha. rewrite (consistent_run cw l s a Ha). split.
  - intros [= H]. by apply (consistent_dict_val cw a true).
  - intros Hc. by rewrite (Consistent_consistent_dict cw a Hc).
Qed.

(** X2. If [consistent] accepts an assignment, it accepts every assignment
    obtained by dropping bindings from it. *)
Theorem consistent_sub_assignment (cw : Crossword) (s : solver) (l l' : loc)
    (a b : gmap Var string) :
  heap s !! l = Some a → heap s !! l' = Some b → a ⊆ b →
  consistent cw l' s = (Val true, s) →
  consistent cw l s = (Val true, s).
Proof.
  intros Ha Hb Hsub. rewrite (consistent_run cw l' s b Hb), (consistent_run cw l s a Ha).
  intros [= H]. f_equal. apply Consistent_consistent_dict.
  eapply Consistent_weaken; [exact Hsub|]. by apply (consistent_dict_val cw b true).
Qed.


(** ** [select_unassigned_variable] *)

Section select_more.

Context (cw : Crossword).

Lemma key_lt_true k1 k2 :
  key_lt k1 k2 = true ↔ k1.1 < k2.1 ∨ (k1.1 = k2.1 ∧ (k1.2 < k2.2)%Z).
Proof.
  unfold key_lt. rewrite orb_true_iff, andb_true_iff, !bool_decide_eq_true. tauto.
Qed.

Lemma key_lt_false k1 k2 :
  key_lt k1 k2 = false ↔ k2.1 < k1.1 ∨ (k2.1 = k1.1 ∧ (k2.2 ≤ k1.2)%Z).
Proof.
  rewrite <- not_true_iff_false, key_lt_true. lia.
Qed.

Lemma mrv_key_inv var s r s' :
  mrv_key cw var s = (r, s') →
  s' = s ∧
  ((∃ d, domains s !! var = Some d ∧
         r = Val (size d, (- Z.of_nat (size (neighbors cw var)))%Z)) ∨
   (domains s !! var = None ∧ r = Exn KeyError)).
Proof.
  unfold mrv_key. intros H.
  apply bind_inv in H as [(d & s1 & Hg & H)|(e & Hg & ->)].
  - apply get_domain_inv in Hg as [-> [(d' & Hd & [= <-])|[_ ?]]]; [|done].
    unfold ret in H. injection H as <- <-. eauto.
  - apply get_domain_inv in Hg as [-> [(? & _ & ?)|[Hn [= ->]]]]; [done|]. eauto.
Qed.

(** [min] returns an element whose key no other element undercuts. *)
Lemma min_by_least best kbest l s var s' :
  mrv_key cw best s = (Val kbest, s) →
  min_by cw best kbest l s = (Val var, s') →
  ∃ kvar, mrv_key cw var s = (Val kvar, s) ∧
          key_lt kbest kvar = false ∧
          ∀ v, v ∈ l → ∃ kv, mrv_key cw v s = (Val kv, s) ∧ key_lt kv kvar = false.
Proof.
  revert best kbest. induction l as [|x l IH]; intros best kbest Hbest; simpl.
  - intros [= <- _]. exists kbest. split; [done|]. split.
    + apply key_lt_false. lia.
    + by intros ? ?%not_elem_of_nil.
  - intros H. apply bind_inv in H as [(k & s1 & Hk & H)|(e & _ & ?)]; [|done].
    pose proof (readonly_mrv_key _ _ _ _ _ Hk) as ->.
    destruct (key_lt k kbest) eqn:Hlt.
    + destruct (IH _ _ Hk H) as (kvar & Hvar & Hle & Hall).
      exists kvar. split; [done|]. apply key_lt_true in Hlt. apply key_lt_false in Hle.
      split; [apply key_lt_false; lia|].
      intros v [->|Hv]%elem_of_cons; [|by apply Hall].
      exists k. split; [done|]. apply key_lt_false. lia.
    + destruct (IH _ _ Hbest H) as (kvar & Hvar & Hle & Hall).
      exists kvar. split; [done|]. split; [done|].
      intros v [->|Hv]%elem_of_cons; [|by apply Hall].
      exists k. split; [done|].
      apply key_lt_false in Hlt, Hle. apply key_lt_false. lia.
Qed.

End select_more.

(** X4. The variable that [select_unassigned_variable] returns is a
    variable of the puzzle that the assignment does not bind; no other such
    variable has fewer words left in its domain, and none with as many
    words left has more neighbours.  The solver is left unchanged. *)
Theorem select_unassigned_variable_mrv (cw : Crossword) (s s' : solver) (l : loc)
    (a : gmap Var string) (var : Var) :
  heap s !! l = Some a →
  select_unassigned_variable cw l s = (Val var, s') →
  s' = s ∧ var ∈ variables cw ∧ a !! var = None ∧
  ∃ dv, domains s !! var = Some dv ∧
    ∀ v, v ∈ variables cw → a !! v = None →
      ∃ d, domains s !! v = Some d ∧
           (size dv < size d ∨
            (size dv = size d ∧ size (neighbors cw v) ≤ size (neighbors cw var))).
Proof.
  intros Ha Hsel.
  pose proof (readonly_select_unassigned_variable _ _ _ _ _ Hsel) as ->.
  split; [done|].
  destruct (select_unassigned_variable_val cw l s a var s Ha Hsel) as [Hvar Hnone].
  split; [done|]. split; [done|].
  unfold select_unassigned_variable in Hsel.
  erewrite bind_val in Hsel by by apply read_dict_some.
  destruct (unassigned cw a) as [|x xs] eqn:Hun; [done|].
  apply bind_inv in Hsel as [(k & s1 & Hk & Hsel)|(e & _ & ?)]; [|done].
  pose proof (readonly_mrv_key _ _ _ _ _ Hk) as ->.
  destruct (min_by_least cw _ _ _ _ _ _ Hk Hsel) as (kvar & Hkvar & Hle & Hall).
  apply mrv_key_inv in Hkvar as [_ [(dv & Hdv & [= ->])|[_ ?]]]; [|done].
  exists dv. split; [done|]. intros v Hv Hn.
  assert (∃ kv, mrv_key cw v s = (Val kv, s) ∧
                key_lt kv (size dv, (- Z.of_nat (size (neighbors cw var)))%Z) = false)
    as (kv & Hkv & Hlt).
  { assert (v ∈ x :: xs) as [->|Hin]%elem_of_cons.
    { rewrite <- Hun. by apply elem_of_unassigned. }
    - by exists k.
    - by apply Hall. }
  apply mrv_key_inv in Hkv as [_ [(d & Hd & [= ->])|[_ ?]]]; [|done].
  exists d. split; [done|]. apply key_lt_false in Hlt. simpl in Hlt. lia.
Qed.

(** X5. On an assignment that binds every variable of the puzzle and also
    a variable that is not of the puzzle, [backtrack] raises [ValueError]
    ([min] of an empty list): the assignment is not complete, and no
    variable is left to select. *)
Theorem backtrack_overfull_assignment (cw : Crossword) (s : solver) (l : loc)
    (a : gmap Var string) :
  heap s !! l = Some a →
  variables cw ⊆ dom a → dom a ≠ variables cw →
  backtrack cw l s =
    (Exn ValueError, MkSolver (domains s) (heap s) (log s ++ [EvBacktrack l])).
Proof.
  intros Ha Hsub Hne. unfold backtrack.
  erewrite bind_val by by apply read_dict_some.
  simpl.
  rewrite (bind_val _ _ _ _ _ (eq_refl : emit (EvBacktrack l) s = (Val (), _))).
  set (s0 := MkSolver (domains s) (heap s) (log s ++ [EvBacktrack l])).
  assert (heap s0 !! l = Some a) as Ha0 by done.
  erewrite bind_val by by apply assignment_complete_run.
  rewrite bool_decide_eq_false_2 by done.
  erewrite bind_exn; [done|].
  unfold select_unassigned_variable.
  erewrite bind_val by by apply read_dict_some.
  destruct (unassigned cw a) as [|x xs] eqn:Hun; [done|].
  assert (x ∈ unassigned cw a) as Hx by (rewrite Hun; by left).
  apply elem_of_unassigned in Hx as [Hx Hn%not_elem_of_dom].
  destruct Hn. by apply Hsub.
Qed.

(** ** [order_domain_values] *)





Section order_more.

Context (cw : Crossword).



End order_more.

(** X6. [order_domain_values(var, A)] returns every word of the domain of
    [var] exactly once, and leaves the solver unchanged. *)
Theorem order_domain_values_permutation (cw : Crossword) (s s' : solver) (var : Var)
    (l : loc) (values : list string) :
  order_domain_values cw var l s = (Val values, s') →
  s' = s ∧
  ∃ d, domains s !! var = Some d ∧ NoDup values ∧ ∀ w, w ∈ values ↔ w ∈ d.
Proof.
  intros H. pose proof (readonly_order_domain_values _ _ _ _ _ _ H) as ->.
  split; [done|].
  apply order_domain_values_val in H as (d & Hd & Hperm).
  exists d. split; [done|]. split.
  - rewrite Hperm. apply NoDup_elements.
  - intros w. by rewrite Hperm, elem_of_elements.
Qed.


(** ** [enforce_node_consistency] and [revise], run twice *)

(** X8. [enforce_node_consistency] is idempotent: run on its own result, it
    returns leaving the solver exactly as it is. *)
Theorem enforce_node_consistency_idempotent (s : solver) :
  ∃ s1, enforce_node_consistency s = (Val (), s1) ∧
        enforce_node_consistency s1 = (Val (), s1).
Proof.
  destruct (enforce_node_consistency_spec s) as (s1 & Hrun & Hh & Hl & Hd).
  exists s1. split; [done|].
  destruct (enforce_node_consistency_spec s1) as (s2 & Hrun2 & Hh2 & Hl2 & Hd2).
  rewrite Hrun2. f_equal.
  destruct s1 as [d1 h1 l1], s2 as [d2 h2 l2]. simpl in *. subst. f_equal.
  apply map_eq. intros v. rewrite Hd2, Hd.
  destruct (domains s !! v) as [d|]; simpl; [|done].
  by rewrite node_filter_idemp.
Qed.

Lemma revise_loop_scans y i j xs rem rev s r s' :
  revise_loop y i j xs rem rev s = (Val r, s') →
  ∀ w, w ∈ xs → ∃ dy b, domains s !! y = Some dy ∧
                        any_agree i j w (elements dy) = Val b.
Proof.
  revert rem rev. induction xs as [|x xs IH]; intros rem rev; simpl.
  - by intros _ ? ?%not_elem_of_nil.
  - intros H. apply bind_inv in H as [(dy & s1 & Hg & H)|(e & _ & ?)]; [|done].
    apply get_domain_inv in Hg as [-> [(dy' & Hdy & [= <-])|[_ ?]]]; [|done].
    apply bind_inv in H as [(b & s1 & Hl & H)|(e & _ & ?)]; [|done].
    unfold lift in Hl. injection Hl as Hany <-.
    intros w [->|Hw]%elem_of_cons; [by eauto|].
    destruct b; by eapply IH.
Qed.

Lemma revise_loop_all_supported y i j xs rem rev s dy :
  domains s !! y = Some dy →
  (∀ w, w ∈ xs → any_agree i j w (elements dy) = Val true) →
  revise_loop y i j xs rem rev s = (Val (rem, rev), s).
Proof.
  intros Hdy. induction xs as [|x xs IH]; intros Hall; simpl; [done|].
  erewrite bind_val by by apply get_domain_some.
  erewrite bind_val by (unfold lift; by rewrite (Hall x) by by left).
  apply IH. intros w ?. apply Hall. by right.
Qed.

(** X9. Calling [revise(x, y)] again right after it has returned, for two
    different variables, removes nothing more: the second call returns
    false, raises nothing, and leaves the domains as they are. *)
Theorem revise_twice (cw : Crossword) (s s1 : solver) (x y : Var) (b : bool) :
  x ≠ y →
  revise cw x y s = (Val b, s1) →
  revise cw x y s1 =
    (Val false, MkSolver (domains s1) (heap s1) (log s1 ++ [EvRevise x y false])).
Proof.
  intros Hxy Hrun. pose proof Hrun as Hinv. apply revise_inv in Hinv as (_ & _ & Hinv).
  unfold revise in *. destruct (overlaps cw x y) as [[i j]|]; [|done].
  destruct Hinv as (dx & dx' & Hdx & Hd & Hin & _).
  apply bind_inv in Hrun as [(dx0 & s0 & Hg & Hrun)|(e & _ & ?)]; [|done].
  apply get_domain_inv in Hg as [-> [(? & ? & [= <-])|[_ ?]]]; [|done]. simplify_eq.
  apply bind_inv in Hrun as [([rem rev] & s0 & Hloop & _)|(e & _ & ?)]; [|done].
  pose proof (revise_loop_scans _ _ _ _ _ _ _ _ _ Hloop) as Hscan.
  assert (domains s1 !! x = Some dx') as Hdx'.
  { rewrite Hd. apply lookup_insert_eq. }
  erewrite bind_val by by apply get_domain_some.
  assert (revise_loop y i j (elements dx') ∅ false s1 = (Val (∅, false), s1)) as Hloop'.
  { destruct (decide (dx' = ∅)) as [->|Hne].
    { by rewrite elements_empty. }
    assert (∃ w, w ∈ dx') as [w0 Hw0] by by apply set_choose_L.
    destruct (Hscan w0) as (dy & _ & Hdy & _).
    { apply elem_of_elements. by apply Hin in Hw0 as [? _]. }
    apply (revise_loop_all_supported _ _ _ _ _ _ _ dy).
    { rewrite Hd. by rewrite lookup_insert_ne. }
    intros w Hw%elem_of_elements. apply Hin in Hw as [Hw Hsup].
    destruct (Hscan w) as (dy' & bw & Hdy' & Hany); [by apply elem_of_elements|].
    simplify_eq. rewrite Hany. f_equal. apply (any_agree_val _ _ _ _ _ Hany).
    destruct Hsup as (dy' & w' & ? & ? & ?). simplify_eq.
    exists w'. by rewrite elem_of_elements. }
  erewrite bind_val by exact Hloop'. cbv beta iota.
  erewrite bind_val by by apply get_domain_some.
  cbv [bind set_domain emit ret]. simpl. do 2 f_equal.
  rewrite difference_empty_L. by apply insert_id.
Qed.

(** ** What [ac3] returns, and what it keeps *)

Section ac3_more.

Context (cw : Crossword).

Lemma ac3_loop_false_empty n q s s' :
  ac3_loop cw n q s = (Val false, s') → ∃ x, domains s' !! x = Some ∅.
Proof.
  revert q s. induction n as [|n IH]; intros q s; simpl; [done|].
  destruct q as [|[x y] q]; [done|].
  intros H. apply bind_inv in H as [(b & s1 & Hr & H)|(e & _ & ?)]; [|done].
  destruct b; [|by eapply IH].
  apply bind_inv in H as [(dx & s2 & Hg & H)|(e & _ & ?)]; [|done].
  apply get_domain_inv in Hg as [-> [(dx' & Hdx & [= <-])|[_ ?]]]; [|done].
  case_bool_decide as He; [|by eapply IH].
  unfold ret in H. injection H as <-. exists x. by rewrite Hdx, He.
Qed.

Lemma initial_arcs_of_puzzle : arcs_of_puzzle cw (initial_arcs cw).
Proof.
  intros x y [Hx Hy]%elem_of_initial_arcs.
  apply elem_of_neighbors in Hy as (Hy & Hne & _). done.
Qed.

Lemma arcs_of_puzzle_step x y q :
  arcs_of_puzzle cw ((x, y) :: q) →
  arcs_of_puzzle cw (q ++ ((λ z, (z, x)) <$> elements (neighbors cw x ∖ {[y]}))).
Proof.
  intros Hq a c [Hin|Hin]%elem_of_app.
  - apply Hq. by right.
  - apply list_elem_of_fmap in Hin as (z & [= -> ->] & Hz).
    apply elem_of_elements, elem_of_difference in Hz as [Hz _].
    apply elem_of_neighbors in Hz as (Hz & Hne & _).
    destruct (Hq x y) as (Hx & _); [by left|]. done.
Qed.

Lemma arcs_of_puzzle_tail a q : arcs_of_puzzle cw (a :: q) → arcs_of_puzzle cw q.
Proof. intros Hq x y Hin. apply Hq. by right. Qed.

Lemma store_ok_shrinks s s' :
  shrinks (domains s) (domains s') → store_ok cw s → store_ok cw s'.
Proof.
  intros Hsh [Hdoms Hnc]. split; [|by eapply node_consistent_shrinks].
  intros v Hv. apply elem_of_dom. rewrite (shrinks_dom _ _ Hsh).
  apply elem_of_dom. by apply Hdoms.
Qed.

(** On the store that node consistency leaves, [revise] and the loop of
    [ac3] raise nothing. *)
Lemma revise_store_ok x y s :
  overlaps_in_range cw → store_ok cw s → x ∈ variables cw → y ∈ variables cw →
  ∃ b s', revise cw x y s = (Val b, s').
Proof.
  intros Hrange [Hdoms Hnc] Hx Hy.
  destruct (Hdoms x Hx) as [dx Hdx]. destruct (Hdoms y Hy) as [dy Hdy].
  apply (revise_total cw x y s dx dy Hdx Hdy).
  intros i j Hov. destruct (Hrange _ _ _ _ Hov) as [Hi Hj]. split.
  - intros w Hw. by rewrite (Hnc _ _ _ Hdx Hw).
  - intros w Hw. by rewrite (Hnc _ _ _ Hdy Hw).
Qed.

Lemma ac3_loop_no_exception n q s r s' :
  overlaps_in_range cw → store_ok cw s → arcs_of_puzzle cw q →
  ac3_loop cw n q s = (r, s') →
  (∃ b, r = Val b) ∨ r = Exn OutOfFuel.
Proof.
  intros Hrange. revert q s. induction n as [|n IH]; intros q s Hok Hq; simpl.
  { intros [= <- _]. by right. }
  destruct q as [|[x y] q]; [intros [= <- _]; eauto|].
  destruct (Hq x y) as (Hx & Hy & _); [by left|].
  destruct (revise_store_ok x y s Hrange Hok Hx Hy) as (b & s1 & Hr).
  erewrite bind_val by exact Hr.
  assert (store_ok cw s1) as Hok1.
  { apply revise_propagates in Hr as (_ & Hsh & _). by eapply store_ok_shrinks. }
  destruct b.
  - destruct Hok1 as [Hdoms1 Hnc1]. destruct (Hdoms1 x Hx) as [dx Hdx].
    erewrite bind_val by by apply get_domain_some.
    case_bool_decide; [intros [= <- _]; eauto|].
    apply IH; [done|]. by apply arcs_of_puzzle_step.
  - apply IH; [done|]. by eapply arcs_of_puzzle_tail.
Qed.

(** One revision removes no word of a solution. *)
Lemma revise_keeps_solution x y s r s' b :
  dom b = variables cw → Consistent cw b → from_domains s ∅ b →
  y ∈ variables cw → x ≠ y →
  revise cw x y s = (r, s') → from_domains s' ∅ b.
Proof.
  intros Hdom (_ & _ & Hagree) Hfrom Hy Hxy Hrun.
  apply revise_inv in Hrun. destruct r as [c|e]; [|by subst].
  destruct Hrun as (_ & _ & Hrun).
  destruct (overlaps cw x y) as [[i j]|] eqn:Hov.
  2:{ destruct Hrun as [_ Hd]. intros v w Hv Hn. rewrite Hd. by apply Hfrom. }
  destruct Hrun as (dx & dx' & Hdx & Hd & Hin & _).
  intros v w Hv Hn. rewrite Hd. destruct (decide (x = v)) as [<-|Hne].
  - rewrite lookup_insert_eq. exists dx'. split; [done|]. apply Hin.
    destruct (Hfrom x w Hv Hn) as (d & Hd' & Hw). simplify_eq. split; [done|].
    assert (is_Some (b !! y)) as [w' Hw'].
    { apply elem_of_dom. by rewrite Hdom. }
    destruct (Hfrom y w' Hw' (lookup_empty _)) as (dy & Hdy & Hwy).
    exists dy, w'. split; [done|]. split; [done|].
    eapply (Hagree x y); [done..| |done].
    apply elem_of_neighbors. split; [done|]. split; [done|]. by rewrite Hov.
  - rewrite lookup_insert_ne by done. by apply Hfrom.
Qed.

Lemma ac3_loop_keeps_solution n q s r s' b :
  dom b = variables cw → Consistent cw b → arcs_of_puzzle cw q →
  from_domains s ∅ b →
  ac3_loop cw n q s = (r, s') → from_domains s' ∅ b.
Proof.
  intros Hdom Hc. revert q s. induction n as [|n IH]; intros q s Hq Hfrom; simpl.
  { by intros [= _ <-]. }
  destruct q as [|[x y] q]; [by intros [= _ <-]|].
  destruct (Hq x y) as (Hx & Hy & Hxy); [by left|].
  intros H. apply bind_inv in H as [(c & s1 & Hr & H)|(e & Hr & ->)].
  2:{ by eapply revise_keeps_solution. }
  assert (from_domains s1 ∅ b) as Hfrom1 by by eapply revise_keeps_solution.
  destruct c.
  - apply bind_inv in H as [(dx & s2 & Hg & H)|(e & Hg & ->)].
    2:{ by apply get_domain_inv in Hg as [-> _]. }
    apply get_domain_inv in Hg as [-> _].
    case_bool_decide; [by injection H as _ <-|].
    eapply IH; [|done|exact H]. by apply arcs_of_puzzle_step.
  - eapply IH; [|done|exact H]. by eapply arcs_of_puzzle_tail.
Qed.

End ac3_more.

Lemma ac3_all_arcs_returns (cw : Crossword) (s : solver) :
  overlaps_in_range cw → store_ok cw s →
  ∃ b s', ac3 cw None s = (Val b, s').
Proof.
  intros Hrange Hok. destruct (ac3 cw None s) as [r s'] eqn:Hrun.
  pose proof (ac3_never_out_of_fuel _ _ _ _ _ Hrun) as Hfuel.
  unfold ac3 in Hrun.
  apply ac3_loop_no_exception in Hrun as [[b ->]| ->];
    [by eauto|done|done|done|apply initial_arcs_of_puzzle].
Qed.

(** X10. What the result of [ac3] says about the domains: after false some
    domain is empty; after true every domain that held a word before the
    call still holds one. *)
Theorem ac3_result_and_empty_domains (cw : Crossword) (s s' : solver)
    (arcs : option (list (Var * Var))) (b : bool) :
  ac3 cw arcs s = (Val b, s') →
  if b
  then ∀ v d, domains s !! v = Some d → d ≠ ∅ →
         ∃ d', domains s' !! v = Some d' ∧ d' ≠ ∅
  else ∃ x, domains s' !! x = Some ∅.
Proof.
  intros H. destruct b.
  - intros v d Hd Hne.
    pose proof (ac3_propagates _ _ _ _ _ H) as (_ & Hsh & _).
    specialize (Hsh v). rewrite Hd in Hsh.
    destruct (domains s' !! v) as [d'|] eqn:Hd'; [|by inversion Hsh].
    exists d'. split; [done|]. intros ->.
    by pose proof (ac3_loop_emptied cw _ _ _ _ _ _ _ H Hd Hne Hd').
  - by eapply ac3_loop_false_empty.
Qed.

(** X11. On a store with a domain of words of the right length for every
    variable, and with overlap positions inside the slots, [ac3] started on
    all arcs raises no exception: it returns true or false. *)
Theorem ac3_never_raises (cw : Crossword) (s : solver) :
  overlaps_in_range cw → store_ok cw s →
  ∃ b s', ac3 cw None s = (Val b, s').
Proof. apply ac3_all_arcs_returns. Qed.

(** X12. [ac3] started on all arcs removes no word that a complete
    consistent assignment over the domains gives to a variable, whatever it
    returns: it loses no solution. *)
Theorem ac3_keeps_solutions (cw : Crossword) (s s' : solver) (r : res bool)
    (b : gmap Var string) (v : Var) (w : string) :
  dom b = variables cw → Consistent cw b →
  (∀ u x, b !! u = Some x → ∃ d, domains s !! u = Some d ∧ x ∈ d) →
  ac3 cw None s = (r, s') →
  b !! v = Some w →
  ∃ d', domains s' !! v = Some d' ∧ w ∈ d'.
Proof.
  intros Hdom Hc Hfrom Hrun Hv.
  assert (from_domains s' ∅ b) as Hfrom'.
  { eapply ac3_loop_keeps_solution; [done..|apply initial_arcs_of_puzzle| |exact Hrun].
    intros u x Hu _. by apply Hfrom. }
  by apply (Hfrom' v w Hv).
Qed.

(** X13. [solve] on a newly created solver of a puzzle whose overlap
    positions lie inside the slots raises no exception.  It returns a
    complete consistent assignment of words of the vocabulary whenever one
    exists, and [None] only when there is none. *)
Theorem solve_complete (cw : Crossword) :
  overlaps_in_range cw →
  ∃ r s', solve cw (CrosswordCreator_init cw) = (Val r, s') ∧
    match r with
    | Some l => ∃ a, heap s' !! l = Some a ∧ puzzle_solution cw a
    | None => ∀ b, ¬ puzzle_solution cw b
    end.
Proof.
  intros Hrange. unfold solve.
  destruct (enforce_node_consistency_spec (CrosswordCreator_init cw))
    as (s1 & Hnode & _ & _ & Hd1).
  erewrite bind_val by exact Hnode.
  assert (dom (domains (CrosswordCreator_init cw)) = variables cw) as Hdom0
    by apply dom_gset_to_gmap.
  assert (store_ok cw s1) as Hok1.
  { split; [|by eapply enforce_node_consistent].
    intros v Hv. rewrite Hd1, fmap_is_Some. apply elem_of_dom. by rewrite Hdom0. }
  destruct (ac3_all_arcs_returns cw s1 Hrange Hok1) as (c & s2 & Hac3).
  erewrite bind_val by exact Hac3.
  pose proof (ac3_propagates _ _ _ _ _ Hac3) as (_ & Hsh & _).
  assert (store_ok cw s2) as Hok2 by by eapply store_ok_shrinks.
  rewrite (bind_val _ _ _ _ _ (eq_refl : alloc_dict ∅ s2 = (Val _, _))).
  set (s3 := MkSolver (domains s2) (heap s2 ++ [∅]) (log s2)).
  destruct (backtrack_complete cw (length (heap s2)) s3 ∅) as (r & s' & Hrun & Hres).
  - done.
  - by apply (store_ok_domains cw s2).
  - simpl. by apply list_lookup_middle.
  - rewrite dom_empty_L. apply empty_subseteq.
  - intros _. apply Consistent_empty.
  - exists r, s'. split; [done|]. destruct r as [l|].
    + destruct Hres as (a & Ha & _ & Hdom & Hc & Hfrom).
      exists a. split; [done|]. split; [done|]. split; [done|].
      intros v w Hv. destruct (Hfrom v w Hv (lookup_empty _)) as (d2 & Hd2 & Hw).
      simpl in Hd2.
      destruct (shrinks_lookup _ _ _ _ Hsh Hd2) as (d & Hd & Hsub & _).
      rewrite Hd1 in Hd.
      destruct (domains (CrosswordCreator_init cw) !! v) as [d0|] eqn:Hd0;
        [|done]. simpl in Hd. injection Hd as <-.
      apply lookup_gset_to_gmap_Some in Hd0 as [_ <-].
      apply Hsub in Hw. by apply elem_of_node_filter in Hw as [? _].
    + intros b (Hdom & Hc & Hwords). apply (Hres b).
      split; [apply map_empty_subseteq|]. split; [done|]. split; [done|].
      assert (from_domains s1 ∅ b) as Hfrom1.
      { intros v w Hv _. rewrite Hd1.
        assert (v ∈ variables cw) as Hvar.
        { rewrite <- Hdom. apply elem_of_dom. eauto. }
        exists (node_filter v (words cw)). split.
        - simpl. rewrite lookup_gset_to_gmap, option_guard_True by done. done.
        - apply elem_of_node_filter. split; [by eapply Hwords|].
          destruct Hc as (Hlen & _). by apply Hlen. }
      assert (from_domains s2 ∅ b) as Hfrom2.
      { eapply ac3_loop_keeps_solution; [done..|apply initial_arcs_of_puzzle|done|exact Hac3]. }
      intros v w Hv Hn. by apply Hfrom2.
Qed.

(** X14. On a puzzle without variables, [solve] returns the empty
    assignment, not [None]. *)
Theorem solve_no_variables (cw : Crossword) :
  variables cw = ∅ →
  solve cw (CrosswordCreator_init cw) =
    (Val (Some 0), MkSolver ∅ [∅] [EvBacktrack 0]).
Proof.
  intros Hvars. unfold solve, CrosswordCreator_init.
  rewrite Hvars, gset_to_gmap_empty.
  unfold enforce_node_consistency, bind at 1. simpl.
  rewrite dom_empty_L, elements_empty. simpl.
  unfold bind at 1, ac3, initial_arcs. rewrite Hvars, elements_empty. simpl.
  rewrite (bind_val _ _ _ _ _ (eq_refl : alloc_dict ∅ _ = (Val _, _))). simpl.
  unfold backtrack. erewrite bind_val by (by apply read_dict_some).
  simpl. unfold bind at 1. simpl.
  erewrite bind_val by by apply assignment_complete_run.
  rewrite bool_decide_eq_true_2; [done|]. by rewrite dom_empty_L.
Qed.

(** X15. When a variable of the puzzle that the assignment does not bind
    has an empty domain, [backtrack] returns [None] at once: it selects a
    variable without values, copies no assignment and does not call
    itself. *)
Theorem backtrack_dead_end (cw : Crossword) (s : solver) (l : loc)
    (a : gmap Var string) (v : Var) :
  heap s !! l = Some a → dom a ⊆ variables cw →
  (∀ x, x ∈ variables cw → is_Some (domains s !! x)) →
  v ∈ variables cw → a !! v = None → domains s !! v = Some ∅ →
  backtrack cw l s =
    (Val None, MkSolver (domains s) (heap s) (log s ++ [EvBacktrack l])).
Proof. apply backtrack_empty_domain. Qed.

(** ** [letter_grid] *)

Lemma grid_set_val letters i j c letters' width height :
  shaped width height letters →
  grid_set letters i j c = Val letters' →
  shaped width height letters' ∧ i < height ∧ j < width ∧
  grid_get letters' i j = Some (Some c) ∧
  ∀ i' j', (i', j') ≠ (i, j) → grid_get letters' i' j' = grid_get letters i' j'.
Proof.
  intros [Hh Hw] H. unfold grid_set in H.
  destruct (letters !! i) as [row|] eqn:Hrow; [|done].
  case_decide as Hj; [|done]. injection H as <-. unfold grid in *.
  assert (length row = width) as Hlen.
  { apply Hw. by eapply list_elem_of_lookup_2. }
  assert (i < length letters) as Hi by by eapply lookup_lt_Some.
  split; [split|].
  - by rewrite length_insert.
  - intros r Hr. apply list_elem_of_lookup in Hr as [n Hn].
    destruct (decide (n = i)) as [->|Hne].
    + rewrite list_lookup_insert_eq in Hn by done. injection Hn as <-.
      by rewrite length_insert.
    + rewrite list_lookup_insert_ne in Hn by done.
      apply Hw. by eapply list_elem_of_lookup_2.
  - split; [lia|]. split; [lia|]. split.
    + unfold grid_get, grid. rewrite list_lookup_insert_eq by done. simpl.
      by rewrite list_lookup_insert_eq.
    + intros i' j' Hne. unfold grid_get, grid.
      destruct (decide (i' = i)) as [->|Hi'].
      * rewrite list_lookup_insert_eq by done. rewrite Hrow. simpl.
        rewrite list_lookup_insert_ne; [done|]. congruence.
      * by rewrite list_lookup_insert_ne.
Qed.

Lemma grid_set_total letters i j c width height :
  shaped width height letters → i < height → j < width →
  ∃ letters', grid_set letters i j c = Val letters'.
Proof.
  intros [Hh Hw] Hi Hj. unfold grid_set, grid in *.
  destruct (lookup_lt_is_Some_2 letters i) as [row Hrow]; [lia|].
  rewrite Hrow. rewrite decide_True; [eauto|].
  rewrite (Hw row); [done|]. by eapply list_elem_of_lookup_2.
Qed.

Lemma grid_set_exn letters i j c e width height :
  shaped width height letters →
  grid_set letters i j c = Exn e → e = IndexError ∧ ¬ (i < height ∧ j < width).
Proof.
  intros [Hh Hw] H. unfold grid_set in H.
  destruct (letters !! i) as [row|] eqn:Hrow.
  - case_decide as Hj; [done|]. injection H as <-. split; [done|].
    intros [_ Hj']. apply Hj. rewrite (Hw row); [done|].
    by eapply list_elem_of_lookup_2.
  - injection H as <-. split; [done|]. intros [Hi _].
    apply lookup_ge_None in Hrow. lia.
Qed.

Lemma apply_writes_app ws1 ws2 letters :
  apply_writes (ws1 ++ ws2) letters =
  let? letters' := apply_writes ws1 letters in apply_writes ws2 letters'.
Proof.
  revert letters. induction ws1 as [|[[i j] [c|]] ws1 IH]; intros letters; simpl; [done| |done].
  destruct (grid_set letters i j c); simpl; [apply IH|done].
Qed.

Lemma write_word_writes variable word ks letters :
  write_word variable word ks letters = apply_writes (writes_of variable word ks) letters.
Proof.
  revert letters. induction ks as [|k ks IH]; intros letters; simpl; [done|].
  unfold char_at. destruct (String.get k word) as [c|]; simpl; [|done].
  destruct (grid_set letters _ _ c); simpl; [apply IH|done].
Qed.

Lemma letter_grid_loop_writes items letters :
  letter_grid_loop items letters = apply_writes (all_writes items) letters.
Proof.
  revert letters. induction items as [|[variable word] items IH]; intros letters; [done|].
  change (all_writes ((variable, word) :: items))
    with (writes_of variable word (seq 0 (String.length word)) ++ all_writes items).
  rewrite apply_writes_app. simpl. rewrite write_word_writes. destruct (apply_writes _ letters); simpl; [apply IH|done].
Qed.

Lemma elem_of_all_writes items i j c :
  (i, j, c) ∈ all_writes items ↔
  ∃ variable word k, (variable, word) ∈ items ∧ k < String.length word ∧
                     cell variable k = (i, j) ∧ String.get k word = c.
Proof.
  unfold all_writes, writes_of. rewrite list_elem_of_bind. split.
  - intros ([variable word] & Hin & Hitem).
    apply list_elem_of_fmap in Hin as (k & [= -> -> ->] & Hk).
    apply elem_of_seq in Hk. exists variable, word, k.
    split; [done|]. split; [lia|done].
  - intros (variable & word & k & Hitem & Hk & Hcell & Hc).
    exists (variable, word). split; [|done]. apply list_elem_of_fmap.
    exists k. split; [by rewrite Hcell, Hc|]. apply elem_of_seq. lia.
Qed.

Lemma apply_writes_shaped ws letters letters' width height :
  shaped width height letters →
  apply_writes ws letters = Val letters' →
  shaped width height letters' ∧
  (∀ i j c, (i, j, c) ∈ ws → i < height ∧ j < width) ∧
  (∀ i j c, grid_get letters' i j = Some (Some c) →
     grid_get letters i j = Some (Some c) ∨ (i, j, Some c) ∈ ws).
Proof.
  revert letters. induction ws as [|[[i j] [c|]] ws IH]; intros letters Hs; simpl; [| |done].
  - intros [= <-]. split; [done|]. split; [by intros ??? ?%not_elem_of_nil|]. eauto.
  - destruct (grid_set letters i j c) as [l1|] eqn:Hset; simpl; [|done].
    destruct (grid_set_val _ _ _ _ _ _ _ Hs Hset) as (Hs1 & Hi & Hj & Hget & Hother).
    intros H. destruct (IH _ Hs1 H) as (Hs' & Hin & Hjust).
    split; [done|]. split.
    + intros i' j' c' [[= -> -> ->]|?]%elem_of_cons; [by split|by eapply Hin].
    + intros i' j' c' Hg. destruct (Hjust i' j' c' Hg) as [Hg1|?]; [|right; by right].
      destruct (decide ((i', j') = (i, j))) as [[= -> ->]|Hne].
      * rewrite Hget in Hg1. injection Hg1 as ->. right. by left.
      * left. by rewrite <- Hother.
Qed.

Lemma apply_writes_total ws letters width height :
  shaped width height letters →
  (∀ i j c, (i, j, c) ∈ ws → is_Some c ∧ i < height ∧ j < width) →
  ∃ letters', apply_writes ws letters = Val letters'.
Proof.
  revert letters. induction ws as [|[[i j] c] ws IH]; intros letters Hs Hin; simpl; [eauto|].
  destruct (Hin i j c) as ([c' ->] & Hi & Hj); [by left|].
  destruct (grid_set_total letters i j c' _ _ Hs Hi Hj) as [l1 Hset]. rewrite Hset. simpl.
  apply (IH l1).
  - by eapply grid_set_val.
  - intros i' j' c'' ?. apply Hin. by right.
Qed.

Lemma apply_writes_exn ws letters e width height :
  shaped width height letters →
  apply_writes ws letters = Exn e → e = IndexError.
Proof.
  revert letters. induction ws as [|[[i j] [c|]] ws IH]; intros letters Hs; simpl;
    [done| |by intros [= <-]].
  destruct (grid_set letters i j c) as [l1|e'] eqn:Hset; simpl.
  - apply IH. by eapply grid_set_val.
  - intros [= <-]. by eapply grid_set_exn.
Qed.

Lemma apply_writes_outside ws letters i j c width height :
  shaped width height letters →
  (i, j, c) ∈ ws → ¬ (i < height ∧ j < width) →
  apply_writes ws letters = Exn IndexError.
Proof.
  intros Hs Hin Hout.
  destruct (apply_writes ws letters) as [l'|e] eqn:H.
  - destruct (apply_writes_shaped _ _ _ _ _ Hs H) as (_ & Hall & _).
    destruct Hout. by eapply Hall.
  - f_equal. by eapply apply_writes_exn.
Qed.

(** When the writes to one cell all carry the same letter, every write is
    still in the grid at the end. *)
Lemma apply_writes_read ws letters letters' width height :
  shaped width height letters →
  (∀ i j c c', (i, j, c) ∈ ws → (i, j, c') ∈ ws → c = c') →
  apply_writes ws letters = Val letters' →
  (∀ i j c, (i, j, Some c) ∈ ws → grid_get letters' i j = Some (Some c)) ∧
  (∀ i j, (∀ c, (i, j, c) ∉ ws) → grid_get letters' i j = grid_get letters i j).
Proof.
  revert letters. induction ws as [|[[i j] [c|]] ws IH]; intros letters Hs Hag; simpl; [| |done].
  - intros [= <-]. split; [by intros ??? ?%not_elem_of_nil|done].
  - destruct (grid_set letters i j c) as [l1|] eqn:Hset; simpl; [|done].
    destruct (grid_set_val _ _ _ _ _ _ _ Hs Hset) as (Hs1 & Hi & Hj & Hget & Hother).
    intros H. destruct (IH l1 Hs1) as [Hread Hkeep]; [|done|].
    { intros i' j' c1 c2 H1 H2. eapply Hag; by right. }
    split.
    + intros i' j' c' [[= -> -> ->]|Hin]%elem_of_cons; [|by apply Hread].
      destruct (decide (Exists (λ w, w.1 = (i, j)) ws)) as [Hex|Hnex].
      * apply Exists_exists in Hex as ([[i2 j2] c2] & Hin2 & Heq). simpl in Heq.
        injection Heq as -> ->.
        assert (c2 = Some c) as -> by (eapply Hag; [by right|by left]).
        by apply Hread.
      * rewrite Hkeep; [done|]. intros c2 Hin2. apply Hnex, Exists_exists.
        by exists (i, j, c2).
    + intros i' j' Hnone. rewrite Hkeep.
      * apply Hother. intros [= -> ->]. apply (Hnone (Some c)). by left.
      * intros c2 Hin2. apply (Hnone c2). by right.
Qed.

Lemma shaped_replicate width height :
  shaped width height (replicate height (replicate width None)).
Proof.
  split; [by rewrite length_replicate|].
  intros row [-> _]%elem_of_replicate. by rewrite length_replicate.
Qed.

Lemma grid_get_replicate width height i j c :
  grid_get (replicate height (replicate width None)) i j ≠ Some (Some c).
Proof.
  unfold grid_get, grid. intros H.
  destruct (replicate height (replicate width None) !! i) as [row|] eqn:Hrow; [|done].
  apply lookup_replicate in Hrow as [-> _]. simpl in H.
  apply lookup_replicate in H as [? _]. done.
Qed.

(** X16. [letter_grid] returns a grid of [height] rows of [width] cells
    when every letter of every assigned word falls inside the grid; a
    letter that it finds in a cell is the letter that some assigned word
    has there. *)
Theorem letter_grid_letters (width height : nat) (s : solver) (l : loc)
    (a : gmap Var string) :
  heap s !! l = Some a →
  (∀ variable word k, a !! variable = Some word → k < String.length word →
     (cell variable k).1 < height ∧ (cell variable k).2 < width) →
  ∃ letters, letter_grid width height l s = (Val letters, s) ∧
    shaped width height letters ∧
    ∀ i j c, grid_get letters i j = Some (Some c) →
      ∃ variable word k, a !! variable = Some word ∧
        String.get k word = Some c ∧ cell variable k = (i, j).
Proof.
  intros Ha Hfit. unfold letter_grid.
  erewrite bind_val by by apply read_dict_some.
  unfold lift. rewrite letter_grid_loop_writes.
  pose proof (shaped_replicate width height) as Hs.
  destruct (apply_writes_total (all_writes (map_to_list a)) _ _ _ Hs) as [letters Hrun].
  { intros i j c (variable & word & k & Hitem & Hk & Hcell & Hc)%elem_of_all_writes.
    apply elem_of_map_to_list in Hitem. split.
    - rewrite <- Hc. by apply string_get_lt.
    - destruct (Hfit variable word k Hitem Hk) as [Hi Hj]. by rewrite Hcell in Hi, Hj. }
  rewrite Hrun. exists letters. split; [done|].
  destruct (apply_writes_shaped _ _ _ _ _ Hs Hrun) as (Hs' & _ & Hjust).
  split; [done|]. intros i j c Hg.
  destruct (Hjust i j c Hg) as [Hinit|Hin]; [by apply grid_get_replicate in Hinit|].
  apply elem_of_all_writes in Hin as (variable & word & k & Hitem & Hk & Hcell & Hc).
  apply elem_of_map_to_list in Hitem. by exists variable, word, k.
Qed.

(** X17. When some letter of an assigned word falls outside the grid,
    [letter_grid] raises [IndexError]. *)
Theorem letter_grid_outside (width height : nat) (s : solver) (l : loc)
    (a : gmap Var string) (variable : Var) (word : string) (k : nat) :
  heap s !! l = Some a →
  a !! variable = Some word → k < String.length word →
  ¬ ((cell variable k).1 < height ∧ (cell variable k).2 < width) →
  letter_grid width height l s = (Exn IndexError, s).
Proof.
  intros Ha Hv Hk Hout. unfold letter_grid.
  erewrite bind_val by by apply read_dict_some.
  unfold lift. rewrite letter_grid_loop_writes. f_equal.
  eapply (apply_writes_outside _ _ (cell variable k).1 (cell variable k).2
            (String.get k word)); [apply shaped_replicate| |done].
  apply elem_of_all_writes. exists variable, word, k.
  split; [by apply elem_of_map_to_list|]. split; [done|]. split; [|done].
  by destruct (cell variable k).
Qed.

(** X18. When the assigned words that share a cell have the same letter
    there, the grid that [letter_grid] returns holds every assigned word:
    the cell of the [k]-th letter of a variable holds the [k]-th letter of
    its word. *)
Theorem letter_grid_reads_back (width height : nat) (s : solver) (l : loc)
    (a : gmap Var string) (letters : grid) (variable : Var) (word : string)
    (k : nat) (c : Ascii.ascii) :
  heap s !! l = Some a →
  (∀ v1 w1 k1 v2 w2 k2, a !! v1 = Some w1 → a !! v2 = Some w2 →
     k1 < String.length w1 → k2 < String.length w2 →
     cell v1 k1 = cell v2 k2 → String.get k1 w1 = String.get k2 w2) →
  letter_grid width height l s = (Val letters, s) →
  a !! variable = Some word → String.get k word = Some c →
  grid_get letters (cell variable k).1 (cell variable k).2 = Some (Some c).
Proof.
  intros Ha Hag Hrun Hv Hc. unfold letter_grid in Hrun.
  erewrite bind_val in Hrun by by apply read_dict_some.
  unfold lift in Hrun. rewrite letter_grid_loop_writes in Hrun. injection Hrun as Hrun.
  assert (∀ i j c1 c2, (i, j, c1) ∈ all_writes (map_to_list a) →
            (i, j, c2) ∈ all_writes (map_to_list a) → c1 = c2) as Hsame.
  { intros i j c1 c2 (v1 & w1 & k1 & H1 & Hk1 & Hc1 & <-)%elem_of_all_writes
           (v2 & w2 & k2 & H2 & Hk2 & Hc2 & <-)%elem_of_all_writes.
    apply elem_of_map_to_list in H1, H2.
    eapply Hag; [done..|congruence]. }
  destruct (apply_writes_read _ _ _ _ _ (shaped_replicate width height) Hsame Hrun)
    as [Hread _].
  apply Hread. apply elem_of_all_writes. exists variable, word, k.
    split; [by apply elem_of_map_to_list|].
    split; [by eapply string_get_some_lt|]. split; [|done].
    by destruct (cell variable k).
Qed.

(** * The further properties at the example puzzles *)

Lemma cat_art_consistent : consistent solvable 1 cat_art_store = (Val true, cat_art_store).
Proof. vm_compute. reflexivity. Defined.

Lemma consistent_true_iff_witness :
  (∀ v w, cat_art !! v = Some w → String.length w = var_length v) ∧
  (∀ v1 v2 w, cat_art !! v1 = Some w → cat_art !! v2 = Some w → v1 = v2) ∧
  (∀ v1 v2 w1 w2 i j, cat_art !! v1 = Some w1 → cat_art !! v2 = Some w2 →
     v2 ∈ neighbors solvable v1 → overlaps solvable v1 v2 = Some (i, j) →
     agree_at i j w1 w2).
Proof.
  apply (consistent_true_iff solvable cat_art_store 1 cat_art).
  - reflexivity.
  - apply cat_art_consistent.
Defined.

Lemma consistent_sub_assignment_witness :
  consistent solvable 0 cat_art_store = (Val true, cat_art_store).
Proof.
  apply (consistent_sub_assignment solvable cat_art_store 0 1 {[across3 := "cat"]} cat_art).
  - reflexivity.
  - reflexivity.
  - apply map_subseteq_spec. intros v w [<- <-]%lookup_singleton_Some. reflexivity.
  - apply cat_art_consistent.
Defined.


Lemma select_unassigned_variable_mrv_witness :
  solvable_search = solvable_search ∧ down3 ∈ variables solvable ∧
  (∅ : gmap Var string) !! down3 = None ∧
  ∃ dv, domains solvable_search !! down3 = Some dv ∧
    ∀ v, v ∈ variables solvable → (∅ : gmap Var string) !! v = None →
      ∃ d, domains solvable_search !! v = Some d ∧
           (size dv < size d ∨
            (size dv = size d ∧
             size (neighbors solvable v) ≤ size (neighbors solvable down3))).
Proof.
  apply (select_unassigned_variable_mrv solvable solvable_search solvable_search 0 ∅ down3).
  - reflexivity.
  - vm_compute. reflexivity.
Defined.

Lemma backtrack_overfull_assignment_witness :
  backtrack one_slot 0 overfull_search =
    (Exn ValueError,
     MkSolver (domains overfull_search) (heap overfull_search)
       (log overfull_search ++ [EvBacktrack 0])).
Proof.
  apply (backtrack_overfull_assignment one_slot overfull_search 0 overfull).
  - reflexivity.
  - by_compute.
  - by_compute.
Defined.

Lemma order_domain_values_permutation_witness :
  solvable_search = solvable_search ∧
  ∃ d, domains solvable_search !! across3 = Some d ∧
       NoDup ["car"; "cat"; "art"; "rat"] ∧
       ∀ w, w ∈ ["car"; "cat"; "art"; "rat"] ↔ w ∈ d.
Proof.
  apply (order_domain_values_permutation solvable solvable_search solvable_search
           across3 0).
  vm_compute. reflexivity.
Defined.


Lemma revise_twice_witness :
  revise solvable down3 across3 (revise solvable down3 across3 solvable_filtered).2 =
    (Val false,
     MkSolver (domains (revise solvable down3 across3 solvable_filtered).2)
       (heap (revise solvable down3 across3 solvable_filtered).2)
       (log (revise solvable down3 across3 solvable_filtered).2 ++
        [EvRevise down3 across3 false])).
Proof.
  apply (revise_twice solvable solvable_filtered _ down3 across3 true).
  - discriminate.
  - vm_compute. reflexivity.
Defined.

Lemma ac3_result_and_empty_domains_witness :
  ∃ x, domains unsolvable_propagated !! x = Some ∅.
Proof.
  apply (ac3_result_and_empty_domains unsolvable unsolvable_filtered
           unsolvable_propagated None false).
  vm_compute. reflexivity.
Defined.

Lemma ac3_never_raises_witness :
  ∃ b s', ac3 solvable None solvable_search = (Val b, s').
Proof.
  apply (ac3_never_raises solvable solvable_search).
  - apply two_slots_wf.
  - apply solvable_search_ok.
Defined.

Lemma cat_art_Consistent : Consistent solvable cat_art.
Proof.
  apply (consistent_dict_val solvable cat_art true); [vm_compute; reflexivity|done].
Qed.

Lemma ac3_keeps_solutions_witness :
  ∃ d', domains solvable_propagated !! across3 = Some d' ∧ "cat" ∈ d'.
Proof.
  apply (ac3_keeps_solutions solvable solvable_filtered solvable_propagated (Val true)
           cat_art across3 "cat").
  - by_compute.
  - apply cat_art_Consistent.
  - intros u x Hu. exists {["cat"; "car"; "rat"; "art"]}. unfold cat_art in Hu.
    apply lookup_insert_Some in Hu as [[<- <-]|[_ [<- <-]%lookup_singleton_Some]].
    + split; [vm_compute; reflexivity|by_compute].
    + split; [vm_compute; reflexivity|by_compute].
  - apply solvable_propagated_run.
  - reflexivity.
Defined.

Lemma solve_complete_witness :
  ∃ r s', solve solvable (CrosswordCreator_init solvable) = (Val r, s') ∧
    match r with
    | Some l => ∃ a, heap s' !! l = Some a ∧ puzzle_solution solvable a
    | None => ∀ b, ¬ puzzle_solution solvable b
    end.
Proof. apply (solve_complete solvable). apply two_slots_wf. Defined.

Lemma solve_no_variables_witness :
  solve no_slots (CrosswordCreator_init no_slots) =
    (Val (Some 0), MkSolver ∅ [∅] [EvBacktrack 0]).
Proof. apply (solve_no_variables no_slots). reflexivity. Defined.

Lemma cat_art_cells variable word k :
  cat_art !! variable = Some word → k < String.length word →
  (cell variable k).1 < 3 ∧ (cell variable k).2 < 3.
Proof.
  unfold cat_art.
  intros [[<- <-]|[_ [<- <-]%lookup_singleton_Some]]%lookup_insert_Some Hk;
    simpl in Hk; destruct k as [|[|[|k]]]; try lia; vm_compute; lia.
Qed.

Lemma letter_grid_letters_witness :
  ∃ letters, letter_grid 3 3 1 cat_art_store = (Val letters, cat_art_store) ∧
    shaped 3 3 letters ∧
    ∀ i j c, grid_get letters i j = Some (Some c) →
      ∃ variable word k, cat_art !! variable = Some word ∧
        String.get k word = Some c ∧ cell variable k = (i, j).
Proof.
  apply (letter_grid_letters 3 3 cat_art_store 1 cat_art).
  - reflexivity.
  - apply cat_art_cells.
Defined.

Lemma letter_grid_outside_witness :
  letter_grid 2 3 1 cat_art_store = (Exn IndexError, cat_art_store).
Proof.
  apply (letter_grid_outside 2 3 cat_art_store 1 cat_art across3 "cat" 2).
  - reflexivity.
  - reflexivity.
  - simpl. lia.
  - vm_compute. lia.
Defined.

Lemma letter_grid_reads_back_witness :
  grid_get cat_art_grid (cell down3 1).1 (cell down3 1).2 = Some (String.get 1 "art").
Proof.
  apply (letter_grid_reads_back 3 3 cat_art_store 1 cat_art cat_art_grid down3 "art" 1).
  - reflexivity.
  - unfold cat_art. intros v1 w1 k1 v2 w2 k2
      [[<- <-]|[_ [<- <-]%lookup_singleton_Some]]%lookup_insert_Some
      [[<- <-]|[_ [<- <-]%lookup_singleton_Some]]%lookup_insert_Some Hk1 Hk2;
      simpl in Hk1, Hk2;
      destruct k1 as [|[|[|k1]]]; try lia;
      destruct k2 as [|[|[|k2]]]; try lia;
      vm_compute; congruence.
  - vm_compute. reflexivity.
  - reflexivity.
  - reflexivity.
Defined.

Lemma backtrack_dead_end_witness :
  backtrack unsolvable 0 unsolvable_search =
    (Val None,
     MkSolver (domains unsolvable_search) (heap unsolvable_search)
       (log unsolvable_search ++ [EvBacktrack 0])).
Proof.
  apply (backtrack_dead_end unsolvable unsolvable_search 0 ∅ down3).
  - reflexivity.
  - by_compute.
  - intros x Hx. simpl in Hx.
    apply elem_of_union in Hx as [->%elem_of_singleton| ->%elem_of_singleton];
      vm_compute; eauto.
  - by_compute.
  - reflexivity.
  - vm_compute. reflexivity.
Defined.
